(** * Block puzzle (8x8 grid): a shallow embedding of the game code

    Two source files are embedded here:
    - [components/GameBoard.tsx]: the hover preview (with its placement
      validity flag), the computation of the flashing cells of completed
      lines, what a cell displays and its colour class;
    - the [App] component: the game state, the place-shape handler, the
      game-over effect, the reset, what the header and the game-over
      overlay show, and the cookies of the high score and the first visit.

    JavaScript numbers that are used as grid coordinates are integers and
    are modelled by [Z]; loop counters that start at 0 are [nat]. Arrays are
    lists. A grid is an array of row arrays; rows are objects with an
    identity, which matters in [App] where the rows of a grid are shared
    between the old and the new outer array. *)

From Stdlib Require Import ZArith Lia Ascii.
From stdpp Require Import gmap strings list pretty.

Local Open Scope Z_scope.

(** ** Cells and arrays *)

(** A grid cell is [null] or a colour string; reading an array past its end
    gives [undefined]. *)
Inductive cell : Type :=
  | Undefined
  | Null
  | Color (s : string).

Global Instance cell_eq_dec : EqDecision cell.
Proof. solve_decision. Defined.

(** [cell !== null] *)
Definition isNotNull (v : cell) : bool :=
  match v with
  | Null => false
  | _ => true
  end.

(** [arr[i]] on an array of cells, for an integer index. *)
Definition getCell (arr : list cell) (i : Z) : cell :=
  if 0 <=? i then default Undefined (arr !! Z.to_nat i) else Undefined.

(** [arr[i] = v] on an array of cells, for a non-negative integer index:
    inside the array the slot is overwritten; past its end JavaScript
    extends the array, the skipped slots reading [undefined]. *)
Definition setCell (arr : list cell) (i : nat) (v : cell) : list cell :=
  if (i <? length arr)%nat then <[i := v]> arr
  else arr ++ replicate (i - length arr) Undefined ++ [v].

(** A shape: block offsets [[r, c]] relative to the anchor, and a colour. *)
Record Shape : Type := mkShape {
  blocks : list (Z * Z);
  color : string
}.

Global Instance Shape_eq_dec : EqDecision Shape.
Proof. solve_decision. Defined.

(** The 8x8 boards of the game, as values. *)
Definition board8 (grid : list (list cell)) : Prop :=
  length grid = 8%nat ∧ Forall (λ row, length row = 8%nat) grid.

(** ** GameBoard.tsx *)

Module GameBoard.

(** The [grid] prop is only read by the component (the preview works on
    [grid.map(row => [...row])], a copy of every row), so it is modelled
    by its value. *)
Definition Grid : Type := list (list cell).

(** [grid[r]], [undefined] rows reading as empty arrays (the component
    only indexes rows below [grid.length]). *)
Definition getRow (grid : Grid) (r : Z) : list cell :=
  if 0 <=? r then default [] (grid !! Z.to_nat r) else [].

(** [grid[r][c]] *)
Definition get (grid : Grid) (r c : Z) : cell := getCell (getRow grid r) c.

(** [g[r][c] = v], for a row index inside the grid. *)
Definition set (g : Grid) (r c : nat) (v : cell) : Grid :=
  match g !! r with
  | Some row => <[r := setCell row c v]> g
  | None => g
  end.

(** *** Hover preview, lines 14-46 *)

(** One iteration of [selectedShape.blocks.forEach(([r, c]) => ...)]; the
    loop state is the flag [canPlace] and the preview grid. *)
Definition previewBlock (grid : Grid) (selectedShape : Shape)
    (hoverRow hoverCol : Z) (st : bool * Grid) (b : Z * Z) : bool * Grid :=
  let '(canPlace, newPreviewGrid) := st in
  let newRow := hoverRow + b.1 in
  let newCol := hoverCol + b.2 in
  if (0 <=? newRow) && (newRow <? Z.of_nat (length grid))
     && (0 <=? newCol) && (newCol <? Z.of_nat (length (getRow grid 0)))
  then
    let canPlace := if isNotNull (get grid newRow newCol) then false else canPlace in
    (canPlace,
     set newPreviewGrid (Z.to_nat newRow) (Z.to_nat newCol)
       (if canPlace then Color (color selectedShape +:+ "-preview")
        else Color "invalid"))
  else (false, newPreviewGrid).

(** The body of the effect when a shape is selected and a cell hovered:
    the final [canPlace] and the preview grid handed to [setPreviewGrid]. *)
Definition preview (grid : Grid) (selectedShape : Shape)
    (hoverRow hoverCol : Z) : bool * Grid :=
  fold_left (previewBlock grid selectedShape hoverRow hoverCol)
    (blocks selectedShape) (true, grid).

Definition canPlace (grid : Grid) (selectedShape : Shape)
    (hoverRow hoverCol : Z) : bool :=
  (preview grid selectedShape hoverRow hoverCol).1.

(** *** Flashing cells of completed lines, lines 49-85 *)

Record FlashCell : Type := mkFlash { row : nat; col : nat }.

Global Instance FlashCell_eq_dec : EqDecision FlashCell.
Proof. solve_decision. Defined.

(** [grid[row].every(cell => cell !== null)] *)
Definition isRowFull (grid : Grid) (r : nat) : bool :=
  forallb isNotNull (getRow grid (Z.of_nat r)).

(** [Array.from({length: gridSize}, (_, row) => grid[row][col])
      .every(cell => cell !== null)] *)
Definition isColFull (grid : Grid) (gridSize c : nat) : bool :=
  forallb isNotNull
    (map (λ r, get grid (Z.of_nat r) (Z.of_nat c)) (seq 0 gridSize)).

(** [newFlashingCells.some(cell => cell.row === row && cell.col === col)] *)
Definition someCell (cells : list FlashCell) (r c : nat) : bool :=
  existsb (λ cell, (row cell =? r)%nat && (col cell =? c)%nat) cells.

(** The inner loop of the row scan: every cell of a full row is pushed. *)
Definition pushRow (gridSize r : nat) (cells : list FlashCell) : list FlashCell :=
  fold_left (λ acc c, acc ++ [mkFlash r c]) (seq 0 gridSize) cells.

(** The inner loop of the column scan: a cell is pushed unless present. *)
Definition pushCol (gridSize c : nat) (cells : list FlashCell) : list FlashCell :=
  fold_left (λ acc r, if someCell acc r c then acc else acc ++ [mkFlash r c])
    (seq 0 gridSize) cells.

Definition scanRows (grid : Grid) (gridSize : nat) (cells : list FlashCell)
    : list FlashCell :=
  fold_left (λ acc r, if isRowFull grid r then pushRow gridSize r acc else acc)
    (seq 0 gridSize) cells.

Definition scanCols (grid : Grid) (gridSize : nat) (cells : list FlashCell)
    : list FlashCell :=
  fold_left (λ acc c, if isColFull grid gridSize c then pushCol gridSize c acc else acc)
    (seq 0 gridSize) cells.

(** The array [newFlashingCells] at the end of the two scans. *)
Definition flashingCells (grid : Grid) : list FlashCell :=
  let gridSize := length grid in
  scanCols grid gridSize (scanRows grid gridSize []).

(** *** Hover state and what a cell shows, lines 87-95 and 130-133 *)

(** [hoverPosition] is [null] or a pair; a cell is entered with or without
    a selected shape. *)
Definition handleMouseEnter (selectedShape : option Shape) (rowIndex colIndex : Z)
    (hoverPosition : option (Z * Z)) : option (Z * Z) :=
  match selectedShape with
  | Some _ => Some (rowIndex, colIndex)
  | None => hoverPosition
  end.

Definition handleMouseLeave : option (Z * Z) := None.

(** The effect of lines 14-46 as a whole: the grid it hands to
    [setPreviewGrid]. *)
Definition previewGridOf (hoverPosition : option (Z * Z)) (selectedShape : option Shape)
    (grid : Grid) : Grid :=
  match hoverPosition, selectedShape with
  | Some (hoverRow, hoverCol), Some shape => (preview grid shape hoverRow hoverCol).2
  | _, _ => []
  end.

(** [v !== undefined] *)
Definition isDefined (v : cell) : bool :=
  match v with
  | Undefined => false
  | _ => true
  end.

(** [previewGrid[rowIndex]?.[colIndex]]: [getRow] reads a missing row as
    the empty array, in which every index is [undefined]. *)
Definition displayColor (hoverPosition : option (Z * Z)) (previewGrid grid : Grid)
    (rowIndex colIndex : nat) : cell :=
  let cell := get grid (Z.of_nat rowIndex) (Z.of_nat colIndex) in
  let isPreview :=
    match hoverPosition with
    | Some _ => isDefined (get previewGrid (Z.of_nat rowIndex) (Z.of_nat colIndex))
    | None => false
    end in
  if isPreview then get previewGrid (Z.of_nat rowIndex) (Z.of_nat colIndex) else cell.

(** *** The colour class of a cell, lines 97-125 *)

(** [s.endsWith(suffix)]: some tail of [s] is [suffix]. *)
Fixpoint endsWith (s suffix : string) : bool :=
  String.eqb s suffix
  || match s with
     | EmptyString => false
     | String _ rest => endsWith rest suffix
     end.

(** [s.includes(pat)]: some tail of [s] starts with [pat]. *)
Fixpoint includes (s pat : string) : bool :=
  String.prefix pat s
  || match s with
     | EmptyString => false
     | String _ rest => includes rest pat
     end.

Fixpoint dropChars (n : nat) (s : string) : string :=
  match n, s with
  | S k, String _ rest => dropChars k rest
  | _, _ => s
  end.

(** [s.replace(pat, '')] with a string pattern: the first occurrence of
    [pat] is taken out. *)
Fixpoint removeFirst (pat s : string) : string :=
  if String.prefix pat s then dropChars (String.length pat) s
  else match s with
       | EmptyString => EmptyString
       | String a rest => String a (removeFirst pat rest)
       end.

(** The [switch] on the base colour. *)
Definition baseColorOf (color : string) : string :=
  if String.eqb color "red" then "bg-red-500"
  else if String.eqb color "blue" then "bg-blue-500"
  else if String.eqb color "green" then "bg-green-500"
  else if String.eqb color "yellow" then "bg-yellow-400"
  else if String.eqb color "purple" then "bg-purple-500"
  else if String.eqb color "orange" then "bg-orange-500"
  else if String.eqb color "cyan" then "bg-cyan-400"
  else "bg-gray-500".

(** [getBlockColor] on a string; [isFlashing] depends on the cell only and
    is the same in the recursive call. The recursive call is on the string
    with "-preview" taken out, which is shorter; [fuel] bounds the depth of
    the recursion, and the length of the string is always enough. *)
Fixpoint blockColorFuel (fuel : nat) (isFlashing : bool) (color : string) : string :=
  if String.eqb color "" then "bg-gray-900"
  else if String.eqb color "invalid" then "bg-red-500 bg-opacity-40"
  else if endsWith color "-preview" then
    match fuel with
    | O => ""
    | S fuel' =>
      blockColorFuel fuel' isFlashing (removeFirst "-preview" color) +:+ " opacity-40"
    end
  else if isFlashing then baseColorOf color +:+ " animate-pulse"
  else baseColorOf color.

Definition blockColorOf (isFlashing : bool) (color : string) : string :=
  blockColorFuel (String.length color) isFlashing color.

(** Lines 97-125: [!color] holds of [null], [undefined] and the empty
    string. *)
Definition getBlockColor (flashingCells : list FlashCell) (color : cell)
    (rowIndex colIndex : nat) : string :=
  let isFlashing := someCell flashingCells rowIndex colIndex in
  match color with
  | Color s => blockColorOf isFlashing s
  | _ => "bg-gray-900"
  end.

End GameBoard.


(** ** JavaScript numbers

    The numbers of the game hold integers, but they are IEEE 754 doubles.
    Every integer up to 2^53 in absolute value is a double. The sum, the
    difference and the product of two doubles are the exact result rounded
    to the nearest double, a result halfway between two doubles going to
    the one with the even mantissa. Results from 2^1024 on ([Infinity] in
    JavaScript) are outside this model. *)
Definition roundNumber (z : Z) : Z :=
  let a := Z.abs z in
  if a <? 2 ^ 53 then z
  else
    let ulp := 2 ^ (Z.log2 a - 52) in
    let q := a / ulp in
    let r := a mod ulp in
    let q' := if 2 * r <? ulp then q
              else if ulp <? 2 * r then q + 1
              else if Z.even q then q else q + 1 in
    Z.sgn z * (q' * ulp).

(** [x + y], [x - y] and [x * y] on doubles that hold integers. *)
Definition numAdd (x y : Z) : Z := roundNumber (x + y).
Definition numSub (x y : Z) : Z := roundNumber (x - y).
Definition numMul (x y : Z) : Z := roundNumber (x * y).

(** ** The object store of [App]

    In [App] the grid in the React state is a reference to an outer array
    whose elements are references to row arrays. [[...grid]] makes a new
    outer array holding the same row references, so the store keeps outer
    arrays and rows apart, each under its location. *)

Definition loc : Type := nat.

Record World : Type := mkWorld {
  outers : gmap nat (list loc);      (* outer arrays: the row references *)
  rowsOf : gmap nat (list cell);     (* row arrays *)
  rng : N;                           (* state of the random source *)
  writes : list (Z * Z)              (* grid indices written so far, oldest first *)
}.

(** A JavaScript statement either completes or raises (here always a
    [TypeError], from indexing [undefined]). *)
Inductive result (A : Type) : Type :=
  | Ok (a : A)
  | Throw.
Arguments Ok {A} a.
Arguments Throw {A}.

(** Computations over the store. *)
Definition M (A : Type) : Type := World → result A * World.

Definition ret {A} (a : A) : M A := λ w, (Ok a, w).
Definition throw {A} : M A := λ w, (Throw, w).
Definition bind {A B} (m : M A) (k : A → M B) : M B :=
  λ w, match m w with
       | (Ok a, w') => k a w'
       | (Throw, w') => (Throw, w')
       end.

Notation "x <- m ;; k" := (bind m (λ x, k))
  (at level 100, m at next level, right associativity,
   format "'[v' x  <-  m  ;;  '/' k ']'").
Notation "m ;;; k" := (bind m (λ _, k))
  (at level 100, right associativity).

(** [arr.forEach(f)] *)
Fixpoint forEach {A} (arr : list A) (f : A → M unit) : M unit :=
  match arr with
  | [] => ret tt
  | x :: rest => f x ;;; forEach rest f
  end.

(** [arr[i]] on any array, for an integer index; [None] is [undefined]. *)
Definition index {A} (arr : list A) (i : Z) : option A :=
  if 0 <=? i then arr !! Z.to_nat i else None.

(** A new outer array. *)
Definition allocOuter (rows : list loc) : M loc :=
  λ w, let g := fresh (dom (outers w)) in
       (Ok g, mkWorld (<[g := rows]> (outers w)) (rowsOf w) (rng w) (writes w)).

(** A new row array. *)
Definition allocRow (cells : list cell) : M loc :=
  λ w, let r := fresh (dom (rowsOf w)) in
       (Ok r, mkWorld (outers w) (<[r := cells]> (rowsOf w)) (rng w) (writes w)).

(** [[...grid]]: a new outer array with the elements of [grid]. *)
Definition spread (grid : loc) : M loc :=
  λ w, match outers w !! grid with
       | Some rows => allocOuter rows w
       | None => (Throw, w)
       end.

(** [g[i][j] = v], for integers [i] and [j] with [0 <= j]: [g[i]] is
    looked up in the outer array, and the write goes to that row object.
    When [g[i]] is [undefined] the statement raises. The indices are
    recorded in [writes]. *)
Definition writeCell (g : loc) (i j : Z) (v : cell) : M unit :=
  λ w,
    let w1 := mkWorld (outers w) (rowsOf w) (rng w) (writes w ++ [(i, j)]) in
    match outers w !! g with
    | None => (Throw, w1)
    | Some rows =>
      match index rows i with
      | None => (Throw, w1)
      | Some r =>
        match rowsOf w !! r with
        | None => (Throw, w1)
        | Some cells =>
          (Ok tt, mkWorld (outers w) (<[r := setCell cells (Z.to_nat j) v]> (rowsOf w))
                          (rng w) (writes w ++ [(i, j)]))
        end
      end
    end.

(** The value of the board behind a grid reference: what a reader of
    [grid[r][c]] sees in the current store. *)
Definition readGrid (w : World) (g : loc) : list (list cell) :=
  match outers w !! g with
  | Some rows => map (λ r, default [] (rowsOf w !! r)) rows
  | None => []
  end.

(** [grid[r][c]] through the store. *)
Definition readCell (w : World) (g : loc) (r c : Z) : cell :=
  GameBoard.get (readGrid w g) r c.

(** ** App *)

(** The functions [App] imports from [utils/gameLogic] and
    [utils/shapeGenerator]. [checkPlacement] and [checkGameOver] read the
    board they are given; [clearLines] receives the grid reference and may
    work on the store; [generateShapes] draws from the random source. *)
Class GameLogic : Type := {
  checkPlacement : list (list cell) → Shape → Z → Z → bool;
  clearLines : loc → M (loc * Z * list (Z * Z));
  checkGameOver : list (list cell) → list Shape → bool;
  generateShapes : nat → N → list Shape * N
}.

Module App.

Definition GRID_SIZE : Z := 8.

(** The React state of the component that the game logic reads or
    writes. The modal, animation and flash flags are display state only
    and are left out. [selectedShape = None] is [null]. *)
Record State : Type := mkState {
  score : Z;
  highScore : Z;
  grid : loc;
  availableShapes : list Shape;
  selectedShape : option Z;
  gameOver : bool;
  streak : Z
}.

(** [arr.splice(start, 1)] on a copy of [arr]: the array that is left. *)
Definition splice1 {A} (arr : list A) (start : Z) : list A :=
  let len := Z.of_nat (length arr) in
  let actualStart := if start <? 0 then Z.max (len + start) 0 else Z.min start len in
  let deleteCount := Z.min 1 (len - actualStart) in
  take (Z.to_nat actualStart) arr ++ drop (Z.to_nat (actualStart + deleteCount)) arr.

(** [generateShapes(n)], threading the random source of the store. *)
Definition generate `{GameLogic} (n : nat) : M (list Shape) :=
  λ w, let '(shapes, seed) := generateShapes n (rng w) in
       (Ok shapes, mkWorld (outers w) (rowsOf w) seed (writes w)).

(** [Array(GRID_SIZE).fill(null).map(() => Array(GRID_SIZE).fill(null))] *)
Fixpoint allocRows (n : nat) : M (list loc) :=
  match n with
  | O => ret []
  | S k =>
    r <- allocRow (replicate (Z.to_nat GRID_SIZE) Null) ;;
    rest <- allocRows k ;;
    ret (r :: rest)
  end.

Definition emptyGrid : M loc :=
  rows <- allocRows (Z.to_nat GRID_SIZE) ;;
  allocOuter rows.

(** Lines 73-80. *)
Definition resetGame `{GameLogic} (st : State) : M State :=
  g <- emptyGrid ;;
  shapes <- generate 3 ;;
  ret (mkState 0 (highScore st) g shapes None false 0).

(** Line 82. *)
Definition handleShapeSelect (i : Z) (st : State) : State :=
  mkState (score st) (highScore st) (grid st) (availableShapes st) (Some i)
    (gameOver st) (streak st).

(** Lines 94-101: the copy of the grid and the loop over the blocks. *)
Definition placeBlock (newGrid : loc) (shape : Shape) (rowIndex colIndex : Z)
    (b : Z * Z) : M unit :=
  let newRow := rowIndex + b.1 in
  let newCol := colIndex + b.2 in
  if (0 <=? newRow) && (newRow <? GRID_SIZE) && (0 <=? newCol) && (newCol <? GRID_SIZE)
  then writeCell newGrid newRow newCol (Color (color shape))
  else ret tt.

Definition placeOnGrid (grid : loc) (shape : Shape) (rowIndex colIndex : Z) : M loc :=
  newGrid <- spread grid ;;
  forEach (blocks shape) (placeBlock newGrid shape rowIndex colIndex) ;;;
  ret newGrid.

(** Lines 103-137: the points of a turn, from the number of blocks placed,
    the number of lines cleared and the streak before the turn. [turnScore]
    computes on the integers; it is what the code computes as long as the
    numbers involved are safe integers (below 2^53 in absolute value).
    [turnScoreNumber] further down is the same computation on doubles. *)
Record TurnScore : Type := mkTurn {
  placementPoints : Z;
  linePoints : Z;
  newStreak : Z;
  totalPointsScored : Z
}.

Definition turnScore (blockCount clearedLines streak : Z) : TurnScore :=
  let placementPoints := blockCount * 10 in
  let '(linePoints, newStreak) :=
    if clearedLines >? 0 then
      let newStreak := streak + 1 in
      let streakBonus := (newStreak - 1) * 10 in
      (clearedLines * (100 + streakBonus), newStreak)
    else (0, 0) in
  mkTurn placementPoints linePoints newStreak (placementPoints + linePoints).

(** Lines 103-137 on the doubles the code computes with: every [+], [-]
    and [*] rounds its result. *)
Definition turnScoreNumber (blockCount clearedLines streak : Z) : TurnScore :=
  let placementPoints := numMul blockCount 10 in
  let '(linePoints, newStreak) :=
    if clearedLines >? 0 then
      let newStreak := numAdd streak 1 in
      let streakBonus := numMul (numSub newStreak 1) 10 in
      (numMul clearedLines (numAdd 100 streakBonus), newStreak)
    else (0, 0) in
  mkTurn placementPoints linePoints newStreak (numAdd placementPoints linePoints).

(** Lines 145-154: the pieces after the used one is removed. *)
Definition nextShapes `{GameLogic} (availableShapes : list Shape) (selected : Z)
    : M (list Shape) :=
  let newAvailableShapes := splice1 availableShapes selected in
  if (length newAvailableShapes =? 0)%nat then generate 3
  else ret newAvailableShapes.

(** Lines 86-158. With [shape] undefined (a selection that is no index of
    [availableShapes]) reading [shape.blocks] raises before any write and
    before any state setter. *)
Definition handlePlaceShape `{GameLogic} (rowIndex colIndex : Z) (st : State) : M State :=
  match selectedShape st with
  | None => ret st
  | Some selected =>
    if gameOver st then ret st
    else
      match index (availableShapes st) selected with
      | None => throw
      | Some shape =>
        λ w,
          if checkPlacement (readGrid w (grid st)) shape rowIndex colIndex then
            (newGrid <- placeOnGrid (grid st) shape rowIndex colIndex ;;
             let blockCount := Z.of_nat (length (blocks shape)) in
             cleared <- clearLines newGrid ;;
             let '(updatedGrid, clearedLines, _) := cleared in
             let t := turnScore blockCount clearedLines (streak st) in
             shapes <- nextShapes (availableShapes st) selected ;;
             ret (mkState (score st + totalPointsScored t) (highScore st)
                    updatedGrid shapes None (gameOver st) (newStreak t))) w
          else ret st w
      end
  end.

(** Lines 49-61: the game-over effect, run on the committed state. *)
Definition gameOverEffect `{GameLogic} (w : World) (st : State) : State :=
  if (Z.of_nat (length (availableShapes st)) >? 0) && negb (gameOver st) then
    if checkGameOver (readGrid w (grid st)) (availableShapes st) then
      mkState (score st)
        (if score st >? highScore st then score st else highScore st)
        (grid st) (availableShapes st) (selectedShape st) true (streak st)
    else st
  else st.

(** Lines 160-163 (the settings dialog). *)
Definition clearHighScore (st : State) : State :=
  mkState (score st) 0 (grid st) (availableShapes st) (selectedShape st)
    (gameOver st) (streak st).

(** What can happen to the component. *)
Inductive event : Type :=
  | SelectShape (i : Z)           (* a click on a piece *)
  | CellClick (r c : Z)           (* a click on a board cell *)
  | CheckGameOver                 (* the game-over effect runs *)
  | PlayAgain                     (* resetGame *)
  | ResetHighScore.               (* clearHighScore, from the settings *)

(** The steps of the game itself, as opposed to the settings. *)
Definition gameplay (ev : event) : bool :=
  match ev with
  | ResetHighScore => false
  | _ => true
  end.

(** A handler that raises leaves the React state as it was; the store
    keeps what it wrote. *)
Definition commit (st : State) (m : M State) (w : World) : World * State :=
  match m w with
  | (Ok st', w') => (w', st')
  | (Throw, w') => (w', st)
  end.

Definition step `{GameLogic} (ev : event) (c : World * State) : World * State :=
  let '(w, st) := c in
  match ev with
  | SelectShape i => (w, handleShapeSelect i st)
  | CellClick r c => commit st (handlePlaceShape r c st) w
  | CheckGameOver => (w, gameOverEffect w st)
  | PlayAgain => commit st (resetGame st) w
  | ResetHighScore => (w, clearHighScore st)
  end.

Definition run `{GameLogic} (evs : list event) (c : World * State) : World * State :=
  fold_left (λ c ev, step ev c) evs c.

(** The states of a game: the component calls [resetGame] when it mounts
    (after loading the stored high score), and then steps. *)
Inductive reachable `{GameLogic} : World * State → Prop :=
  | reach_mount w st : reachable (commit st (resetGame st) w)
  | reach_step ev c : reachable c → reachable (step ev c).

(** *** What the header and the game-over overlay show *)

(** Line 179: the streak badge. *)
Definition showsStreak (st : State) : bool := streak st >? 1.

(** Lines 223-230: the "New High Score!" line of the game-over overlay. *)
Definition showsNewHighScore (st : State) : bool :=
  gameOver st && ((score st >=? highScore st) && (score st >? 0)).

End App.

(** ** Cookies: the stored high score and the first visit *)

Module Persistence.

(** The cookie jar of [js-cookie]: [Cookies.get(name)] is a lookup
    ([None] is [undefined]), [Cookies.set] an insert, [Cookies.remove] a
    delete. The expiry of 365 days is not modelled. *)
Definition highScoreKey : string := "blockPuzzleHighScore".
Definition visitedKey : string := "blockPuzzleVisited".

(** A string is truthy unless it is empty. *)
Definition truthy (v : option string) : bool :=
  match v with
  | Some s => negb (String.eqb s "")
  | None => false
  end.

(** The value of a run of decimal digits at the head of a string, read
    left to right onto [acc]. *)
Fixpoint digitsValue (acc : N) (s : string) : N :=
  match s with
  | String a rest =>
    match Ascii.is_nat a with
    | Some d => digitsValue (acc * 10 + N.of_nat d) rest
    | None => acc
    end
  | EmptyString => acc
  end.

Definition startsWithDigit (s : string) : bool :=
  match s with
  | String a _ => bool_decide (is_Some (Ascii.is_nat a))
  | EmptyString => false
  end.

Fixpoint skipSpace (s : string) : string :=
  match s with
  | String a rest => if Ascii.is_space a then skipSpace rest else s
  | EmptyString => s
  end.

(** [parseInt(s, 10)] on a string of one-byte characters: white space is
    skipped, a sign is read, then the longest run of decimal digits;
    without a digit the result is [NaN], here [None]. *)
Definition parseInt10 (s : string) : option Z :=
  match skipSpace s with
  | String "-"%char rest =>
    if startsWithDigit rest then Some (- Z.of_N (digitsValue 0 rest)) else None
  | String "+"%char rest =>
    if startsWithDigit rest then Some (Z.of_N (digitsValue 0 rest)) else None
  | t => if startsWithDigit t then Some (Z.of_N (digitsValue 0 t)) else None
  end.

(** [n.toString()] of an integer below 10^21 in absolute value: its
    decimal digits, with a minus sign when negative. *)
Definition toString (n : Z) : string := pretty n.

(** Lines 27-30 of the mount effect: the high score after them, [None]
    when [parseInt] gave [NaN]. *)
Definition loadHighScore (jar : gmap string string) (highScore : Z) : option Z :=
  let savedHighScore := jar !! highScoreKey in
  if truthy savedHighScore then parseInt10 (default "" savedHighScore)
  else Some highScore.

(** Lines 32-36 of the mount effect: whether the instructions are shown,
    and the jar afterwards. *)
Definition firstTimeUser (jar : gmap string string) : bool :=
  negb (truthy (jar !! visitedKey)).

Definition markVisited (jar : gmap string string) : gmap string string :=
  if firstTimeUser jar then <[visitedKey := "true"]> jar else jar.

(** Lines 42-46: the effect that saves the high score. *)
Definition saveHighScore (highScore : Z) (jar : gmap string string) : gmap string string :=
  if highScore >? 0 then <[highScoreKey := toString highScore]> jar else jar.

(** The effect has [highScore] as its only dependency: after a render it
    runs when the high score is another one than before. *)
Definition saveIfChanged (before after : Z) (jar : gmap string string)
    : gmap string string :=
  if decide (before = after) then jar else saveHighScore after jar.

(** Line 161, the cookie half of [clearHighScore]. *)
Definition removeHighScore (jar : gmap string string) : gmap string string :=
  delete highScoreKey jar.

(** A step of the component with its cookies: the step itself, the
    removal of the cookie when the step is [clearHighScore], and then the
    save effect. *)
Definition stepWithCookies `{GameLogic} (ev : App.event)
    (c : gmap string string * (World * App.State)) : gmap string string * (World * App.State) :=
  let '(jar, (w, st)) := c in
  let c' := App.step ev (w, st) in
  let jar1 := match ev with
              | App.ResetHighScore => removeHighScore jar
              | _ => jar
              end in
  (saveIfChanged (App.highScore st) (App.highScore c'.2) jar1, c').

End Persistence.

(** ** The imported game logic, from its specification *)

Module SpecModel.

Definition inGrid (r c : Z) : bool :=
  (0 <=? r) && (r <? 8) && (0 <=? c) && (c <? 8).

Definition isEmpty (v : cell) : bool :=
  match v with
  | Null => true
  | _ => false
  end.

(** Modelled from the spec: [checkPlacement] of [utils/gameLogic], which is
    not among the sources. A placement is legal iff all target cells
    [(anchorRow + dr, anchorCol + dc)] satisfy [0 <= row < 8],
    [0 <= col < 8] and the board cell there is empty. *)
Definition canPlace (board : list (list cell)) (shape : Shape)
    (anchorRow anchorCol : Z) : bool :=
  forallb (λ b, let r := anchorRow + b.1 in
                let c := anchorCol + b.2 in
                inGrid r c && isEmpty (GameBoard.get board r c))
    (blocks shape).

Definition rowComplete (board : list (list cell)) (r : nat) : bool :=
  forallb (λ c, isNotNull (GameBoard.get board (Z.of_nat r) (Z.of_nat c))) (seq 0 8).

Definition colComplete (board : list (list cell)) (c : nat) : bool :=
  forallb (λ r, isNotNull (GameBoard.get board (Z.of_nat r) (Z.of_nat c))) (seq 0 8).

Definition cleared (board : list (list cell)) (r c : nat) : bool :=
  rowComplete board r || colComplete board c.

(** Modelled from the spec: the value part of [clearLines] of
    [utils/gameLogic] ([clearCompletedLines] in the spec). All 8 rows and 8
    columns are scanned; a line is complete iff each of its 8 cells is
    non-empty; the cells of complete lines are empty in the output board;
    the count is the number of complete rows plus complete columns; the
    positions are listed once each. *)
Definition clearedBoard (board : list (list cell)) : list (list cell) :=
  map (λ r, map (λ c, if cleared board r c then Null
                      else GameBoard.get board (Z.of_nat r) (Z.of_nat c))
            (seq 0 8))
      (seq 0 8).

Definition clearedLineCount (board : list (list cell)) : nat :=
  (length (filter (λ r, rowComplete board r = true) (seq 0 8))
   + length (filter (λ c, colComplete board c = true) (seq 0 8)))%nat.

Definition clearedCellPositions (board : list (list cell)) : list (Z * Z) :=
  flat_map (λ r, flat_map (λ c, if cleared board r c
                                then [(Z.of_nat r, Z.of_nat c)] else [])
                          (seq 0 8))
           (seq 0 8).

Fixpoint allocAll (rows : list (list cell)) : M (list loc) :=
  match rows with
  | [] => ret []
  | cells :: rest =>
    r <- allocRow cells ;;
    rs <- allocAll rest ;;
    ret (r :: rs)
  end.

(** Modelled from the spec: [clearLines] itself returns a new board, so
    the cleared board is stored under fresh rows and a fresh outer array. *)
Definition clearCompletedLines (g : loc) : M (loc * Z * list (Z * Z)) :=
  λ w, let board := readGrid w g in
       (rows <- allocAll (clearedBoard board) ;;
        newBoard <- allocOuter rows ;;
        ret (newBoard, Z.of_nat (clearedLineCount board), clearedCellPositions board)) w.

(** Modelled from the spec: [checkGameOver] of [utils/gameLogic]
    ([isGameOver] in the spec): true iff for every piece and every anchor
    of the 8x8 grid [canPlace] is false. *)
Definition isGameOver (board : list (list cell)) (availablePieces : list Shape) : bool :=
  forallb (λ piece,
    forallb (λ r, forallb (λ c,
        negb (canPlace board piece (Z.of_nat r) (Z.of_nat c))) (seq 0 8))
      (seq 0 8))
    availablePieces.

(** Modelled from the spec: the catalog of [utils/shapeGenerator], which is
    not among the sources: straight lines of length 1 to 5, a square and an
    L-shape, with offsets from 0. *)
Definition catalog : list (list (Z * Z)) :=
  [ [(0,0)];
    [(0,0); (0,1)];
    [(0,0); (0,1); (0,2)];
    [(0,0); (0,1); (0,2); (0,3)];
    [(0,0); (0,1); (0,2); (0,3); (0,4)];
    [(0,0); (0,1); (1,0); (1,1)];
    [(0,0); (1,0); (2,0); (2,1)] ].

(** The palette: the colours [GameBoard] knows how to draw. *)
Definition palette : list string :=
  ["red"; "blue"; "green"; "yellow"; "purple"; "orange"; "cyan"].

(** Modelled from the spec: the random source, as an explicit seed with a
    deterministic successor. *)
Definition nextSeed (seed : N) : N :=
  ((seed * 1103515245 + 12345) mod 2147483648)%N.

Definition pick {A} (d : A) (l : list A) (seed : N) : A :=
  nth (N.to_nat (seed mod N.of_nat (length l))%N) l d.

(** Modelled from the spec: [generateShapes] of [utils/shapeGenerator]
    ([generateBatch] in the spec): [count] shapes drawn independently, with
    replacement, from the catalog, each with a colour of the palette drawn
    independently of the shape. *)
Fixpoint generateBatch (count : nat) (seed : N) : list Shape * N :=
  match count with
  | O => ([], seed)
  | S k =>
    let s1 := nextSeed seed in
    let s2 := nextSeed s1 in
    let shape := mkShape (pick [] catalog s1) (pick "red" palette s2) in
    let '(rest, s3) := generateBatch k s2 in
    (shape :: rest, s3)
  end.

Definition logic : GameLogic := {|
  checkPlacement := canPlace;
  clearLines := clearCompletedLines;
  checkGameOver := isGameOver;
  generateShapes := generateBatch
|}.

End SpecModel.

(** ** Notions used in the statements *)

(** What one block of the hovered shape asks of the board. *)
Definition blockFits (grid : list (list cell)) (hoverRow hoverCol : Z) (b : Z * Z) : bool :=
  let newRow := hoverRow + b.1 in
  let newCol := hoverCol + b.2 in
  (0 <=? newRow) && (newRow <? Z.of_nat (length grid))
  && (0 <=? newCol) && (newCol <? Z.of_nat (length (GameBoard.getRow grid 0)))
  && negb (isNotNull (GameBoard.get grid newRow newCol)).

(** The cell a block of the hovered shape points at, the bounds test of
    the preview loop for it, and the two marks the loop writes. *)
Definition targetOf (hoverRow hoverCol : Z) (b : Z * Z) : Z * Z :=
  (hoverRow + b.1, hoverCol + b.2).

Definition inGridOf (grid : list (list cell)) (hoverRow hoverCol : Z) (b : Z * Z) : bool :=
  (0 <=? hoverRow + b.1) && (hoverRow + b.1 <? Z.of_nat (length grid))
  && (0 <=? hoverCol + b.2) && (hoverCol + b.2 <? Z.of_nat (length (GameBoard.getRow grid 0))).

Definition previewMark (shape : Shape) (ok : bool) : cell :=
  if ok then Color (color shape +:+ "-preview") else Color "invalid".

(** [Number.isSafeInteger]: an integer that a double holds exactly, as
    well as its two neighbours. *)
Definition isSafeInteger (z : Z) : Prop := - 2 ^ 53 < z < 2 ^ 53.


(** A complete line of an 8x8 board: none of its 8 cells is empty. *)
Definition rowComplete (grid : list (list cell)) (r : nat) : Prop :=
  ∀ c, (c < 8)%nat → GameBoard.get grid (Z.of_nat r) (Z.of_nat c) ≠ Null.

Definition colComplete (grid : list (list cell)) (c : nat) : Prop :=
  ∀ r, (r < 8)%nat → GameBoard.get grid (Z.of_nat r) (Z.of_nat c) ≠ Null.

(** An index pair inside the 8x8 grid. *)
Definition inBounds (p : Z * Z) : Prop := 0 ≤ p.1 < 8 ∧ 0 ≤ p.2 < 8.

(** A computation whose writes are all within the 8x8 grid. *)
Definition writesInBounds {A} (m : M A) : Prop :=
  ∀ w, ∃ new, writes (m w).2 = writes w ++ new ∧ Forall inBounds new.

(** A click that passes the three guards of the handler. *)
Definition accepted `{GameLogic} (w : World) (st : App.State) (r c selected : Z)
    (shape : Shape) : Prop :=
  App.selectedShape st = Some selected
  ∧ App.gameOver st = false
  ∧ index (App.availableShapes st) selected = Some shape
  ∧ checkPlacement (readGrid w (App.grid st)) shape r c = true.

(** A click the handler turns down: nothing selected, the game over, or
    the selected shape does not fit at the clicked cell. *)
Definition rejected `{GameLogic} (w : World) (st : App.State) (r c : Z) : Prop :=
  App.selectedShape st = None
  ∨ App.gameOver st = true
  ∨ ∃ selected shape,
      App.selectedShape st = Some selected
      ∧ index (App.availableShapes st) selected = Some shape
      ∧ checkPlacement (readGrid w (App.grid st)) shape r c = false.

(** What holds of the counters in every state of a game. *)
Definition counters_ok (c : World * App.State) : Prop :=
  0 ≤ App.score c.2 ∧ 0 ≤ App.streak c.2.

(** A block of the shape lands on cell [(i, j)] of the 8x8 grid. *)
Definition lands (shape : Shape) (rowIndex colIndex : Z) (i j : nat) : Prop :=
  ∃ b, b ∈ blocks shape
       ∧ inBounds (rowIndex + b.1, colIndex + b.2)
       ∧ rowIndex + b.1 = Z.of_nat i ∧ colIndex + b.2 = Z.of_nat j.

(** The outer array of a grid is in the store with at least 8 entries,
    each a row array of the store. *)
Definition rowsInStore (w : World) (g : loc) (rows : list loc) : Prop :=
  outers w !! g = Some rows
  ∧ (8 ≤ length rows)%nat
  ∧ ∀ r, r ∈ rows → is_Some (rowsOf w !! r).

(** The pieces on offer number between 1 and 3. *)
Definition pieces_ok (c : World * App.State) : Prop :=
  (1 ≤ length (App.availableShapes c.2) ≤ 3)%nat.

(** The high-score cookie agrees with the state: a high score above 0 is
    in the jar, in decimal. *)
Definition persisted (jar : gmap string string) (st : App.State) : Prop :=
  0 < App.highScore st →
  jar !! Persistence.highScoreKey = Some (Persistence.toString (App.highScore st)).

(** A game to run the statements on: an empty store, the component
    before it mounts, and the game after it has mounted with the modelled
    imports. *)
Definition world0 : World := mkWorld ∅ ∅ 1 [].

Definition unmounted : App.State := App.mkState 0 0 0%nat [] None false 0.

Definition game0 : World * App.State :=
  @App.commit unmounted (@App.resetGame SpecModel.logic unmounted) world0.

(** The empty board, and the board of the specification's example with
    row 0 and column 0 full. *)
Definition emptyBoard : list (list cell) := replicate 8 (replicate 8 Null).

Definition crossBoard : list (list cell) :=
  replicate 8 (Color "red")
  :: replicate 7 (Color "red" :: replicate 7 Null).

(** The mounted game with its first piece selected. *)
Definition game0_selected : App.State := App.handleShapeSelect 0 game0.2.

(** A board with every other cell taken, in a store of its own, and a game
    on it whose only piece is a domino: no line is complete and no two
    neighbouring cells are free. *)
Definition checkerBoard : list (list cell) :=
  map (λ r, map (λ c, if Nat.even (r + c) then Color "blue" else Null) (seq 0 8))
      (seq 0 8).

Definition stuckWorld : World * loc :=
  match (rows <- SpecModel.allocAll checkerBoard ;; allocOuter rows) world0 with
  | (Ok g, w) => (w, g)
  | (Throw, w) => (w, 0%nat)
  end.

Definition stuck : App.State :=
  App.mkState 50 0 stuckWorld.2 [mkShape [(0, 0); (0, 1)] "red"] None false 0.

(** A finished game whose score equals the stored high score. *)
Definition stuckTie : App.State :=
  App.mkState 50 50 stuckWorld.2 [mkShape [(0, 0); (0, 1)] "red"] None false 0.

(** A domino, for the hover preview. *)
Definition domino : Shape := mkShape [(0, 0); (0, 1)] "red".

(** * Properties *)

(** ** GameBoard: the validity flag of the hover preview *)

Section PreviewFacts.

Variables (grid : list (list cell)) (selectedShape : Shape) (hoverRow hoverCol : Z).

Lemma previewBlock_flag flag pg b :
  (GameBoard.previewBlock grid selectedShape hoverRow hoverCol (flag, pg) b).1
  = flag && blockFits grid hoverRow hoverCol b.
Proof.
  unfold GameBoard.previewBlock, blockFits; cbn zeta.
  destruct (_ && _ && _ && _) eqn:Hin; cbn [fst andb].
  - destruct (isNotNull _); cbn; [by rewrite andb_false_r | by rewrite andb_true_r].
  - by rewrite andb_false_r.
Qed.

Lemma preview_flag bs flag pg :
  (fold_left (GameBoard.previewBlock grid selectedShape hoverRow hoverCol) bs (flag, pg)).1
  = flag && forallb (blockFits grid hoverRow hoverCol) bs.
Proof.
  revert flag pg; induction bs as [|b bs IH]; intros flag pg; cbn [fold_left forallb].
  - by rewrite andb_true_r.
  - destruct (GameBoard.previewBlock _ _ _ _ (flag, pg) b) as [flag' pg'] eqn:Hstep.
    rewrite IH. pose proof (previewBlock_flag flag pg b) as Hf.
    rewrite Hstep in Hf; cbn in Hf. by rewrite Hf, andb_assoc.
Qed.

End PreviewFacts.

Lemma isNotNull_false v : isNotNull v = false ↔ v = Null.
Proof. destruct v; cbn; split; congruence. Qed.

Lemma board8_row0 grid : board8 grid → length (GameBoard.getRow grid 0) = 8%nat.
Proof.
  intros [Hlen Hrows]. unfold GameBoard.getRow; cbn.
  destruct grid as [|row0 rest]; [discriminate|].
  cbn. by inversion Hrows.
Qed.

(** C3. On an 8x8 board the preview's [canPlace] is true exactly when every
    target cell [(anchorRow + dr, anchorCol + dc)] lies in rows 0..7 and
    columns 0..7 and is empty ([null]) on the board; so one target cell out
    of bounds or occupied makes it false. *)
Theorem canPlace_iff_all_targets_free (grid : list (list cell)) (shape : Shape)
    (anchorRow anchorCol : Z) :
  board8 grid →
  GameBoard.canPlace grid shape anchorRow anchorCol = true ↔
  ∀ dr dc, (dr, dc) ∈ blocks shape →
    0 ≤ anchorRow + dr < 8 ∧ 0 ≤ anchorCol + dc < 8 ∧
    GameBoard.get grid (anchorRow + dr) (anchorCol + dc) = Null.
Proof.
  intros Hb. pose proof (board8_row0 grid Hb) as H0. destruct Hb as [Hlen _].
  unfold GameBoard.canPlace, GameBoard.preview.
  rewrite preview_flag, andb_true_l, forallb_forall.
  split.
  - intros Hall dr dc Hin. apply list_elem_of_In, Hall in Hin.
    unfold blockFits in Hin; cbn [fst snd] in Hin. rewrite H0, Hlen in Hin.
    rewrite !andb_true_iff, negb_true_iff, isNotNull_false in Hin.
    rewrite !Z.leb_le, !Z.ltb_lt in Hin. intuition lia.
  - intros Hall [dr dc] Hin. apply list_elem_of_In, Hall in Hin.
    unfold blockFits; cbn [fst snd]. rewrite H0, Hlen.
    rewrite !andb_true_iff, negb_true_iff, isNotNull_false.
    rewrite !Z.leb_le, !Z.ltb_lt. intuition lia.
Qed.

(** ** GameBoard: the flashing cells *)

Section FlashFacts.

Import GameBoard.

Variables (grid : list (list cell)) (gridSize : nat).

Lemma someCell_elem cells r c : someCell cells r c = true ↔ mkFlash r c ∈ cells.
Proof.
  unfold someCell. rewrite existsb_exists. split.
  - intros [[r' c'] [Hin Heq]]. cbn in Heq.
    apply andb_true_iff in Heq as [->%Nat.eqb_eq ->%Nat.eqb_eq].
    by apply list_elem_of_In.
  - intros Hin. exists (mkFlash r c). split; [by apply list_elem_of_In|].
    cbn. by rewrite !Nat.eqb_refl.
Qed.

Lemma push_all {A} (f : A → FlashCell) l cells :
  fold_left (λ acc x, acc ++ [f x]) l cells = cells ++ map f l.
Proof.
  revert cells; induction l as [|x l IH]; intros cells; cbn.
  - by rewrite app_nil_r.
  - by rewrite IH, <- app_assoc.
Qed.

Lemma pushRow_eq r cells :
  pushRow gridSize r cells = cells ++ map (mkFlash r) (seq 0 gridSize).
Proof. apply push_all. Qed.

Lemma elem_row_cells r x :
  x ∈ map (mkFlash r) (seq 0 gridSize) ↔ row x = r ∧ (col x < gridSize)%nat.
Proof.
  rewrite list_elem_of_In, in_map_iff. split.
  - intros [c [<- Hc%in_seq]]. cbn. lia.
  - intros [<- Hc]. exists (col x). split; [by destruct x|]. apply in_seq. lia.
Qed.

Lemma NoDup_row_cells r : NoDup (map (mkFlash r) (seq 0 gridSize)).
Proof.
  apply NoDup_fmap_2; [|apply NoDup_seq]. by intros c c' [=].
Qed.

(** The row scan over any list of row numbers. *)
Lemma scanRows_elem rs cells x :
  x ∈ fold_left (λ acc r, if isRowFull grid r then pushRow gridSize r acc else acc) rs cells
  ↔ x ∈ cells ∨ (row x ∈ rs ∧ (col x < gridSize)%nat ∧ isRowFull grid (row x) = true).
Proof.
  revert cells; induction rs as [|r rs IH]; intros cells; cbn [fold_left].
  - split; [by left|]. intros [?|[H%elem_of_nil _]]; done.
  - rewrite IH. destruct (isRowFull grid r) eqn:Hfull.
    + rewrite pushRow_eq, elem_of_app, elem_row_cells, elem_of_cons.
      split; [|intros [?|[[->|?] [? ?]]]; by eauto 6].
      intros [[?|[<- ?]]|(? & ? & ?)]; eauto 8.
    + rewrite elem_of_cons. split; [intros [?|(? & ? & ?)]; by eauto|].
      intros [?|[[Heq|?] [? Hx]]]; [by left| |by eauto]. congruence.
Qed.

Lemma scanRows_NoDup rs cells :
  NoDup rs → NoDup cells → (∀ x, x ∈ cells → row x ∉ rs) →
  NoDup (fold_left (λ acc r, if isRowFull grid r then pushRow gridSize r acc else acc) rs cells).
Proof.
  revert cells; induction rs as [|r rs IH]; intros cells Hrs Hcells Hfresh; cbn [fold_left].
  - done.
  - apply NoDup_cons in Hrs as [Hr Hrs].
    apply IH; [done| |].
    + destruct (isRowFull grid r); [|done].
      rewrite pushRow_eq. apply NoDup_app. split_and!; [done| |apply NoDup_row_cells].
      intros x Hx [Hrow _]%elem_row_cells. apply (Hfresh x Hx). rewrite Hrow. by left.
    + intros x Hx Hin.
      destruct (isRowFull grid r).
      * rewrite pushRow_eq, elem_of_app, elem_row_cells in Hx.
        destruct Hx as [Hx|[Hrow _]]; [|congruence].
        apply (Hfresh x Hx). by right.
      * apply (Hfresh x Hx). by right.
Qed.

(** The inner loop of the column scan over any list of row numbers. *)
Lemma pushCol_elem rs c cells x :
  x ∈ fold_left (λ acc r, if someCell acc r c then acc else acc ++ [mkFlash r c]) rs cells
  ↔ x ∈ cells ∨ (col x = c ∧ row x ∈ rs).
Proof.
  revert cells; induction rs as [|r rs IH]; intros cells; cbn [fold_left].
  - split; [by left|]. intros [?|[_ H%elem_of_nil]]; done.
  - rewrite IH, elem_of_cons. destruct (someCell cells r c) eqn:Hsome.
    + apply someCell_elem in Hsome. split; [intros [?|[? ?]]; by eauto|].
      intros [?|[Hc [Hr|?]]]; [by left| |by eauto].
      left. destruct x; cbn in *; by subst.
    + rewrite elem_of_app, list_elem_of_singleton. split.
      * intros [[?| ->] | [? ?]]; cbn; eauto.
      * intros [?|[Hc [Hr|?]]]; [by eauto| |by eauto].
        left; right. destruct x; cbn in *; by subst.
Qed.

Lemma pushCol_NoDup rs c cells :
  NoDup cells →
  NoDup (fold_left (λ acc r, if someCell acc r c then acc else acc ++ [mkFlash r c]) rs cells).
Proof.
  revert cells; induction rs as [|r rs IH]; intros cells Hcells; cbn [fold_left]; [done|].
  apply IH. destruct (someCell cells r c) eqn:Hsome; [done|].
  apply NoDup_app. split_and!; [done| |apply NoDup_singleton].
  intros x Hx ->%list_elem_of_singleton.
  apply someCell_elem in Hx. congruence.
Qed.

Lemma scanCols_elem cs cells x :
  x ∈ fold_left (λ acc c, if isColFull grid gridSize c then pushCol gridSize c acc else acc) cs cells
  ↔ x ∈ cells ∨ (col x ∈ cs ∧ (row x < gridSize)%nat ∧ isColFull grid gridSize (col x) = true).
Proof.
  revert cells; induction cs as [|c cs IH]; intros cells; cbn [fold_left].
  - split; [by left|]. intros [?|[H%elem_of_nil _]]; done.
  - rewrite IH, elem_of_cons. destruct (isColFull grid gridSize c) eqn:Hfull.
    + unfold pushCol. rewrite pushCol_elem, elem_of_seq. split.
      * intros [[?|[<- ?]]|(? & ? & ?)]; [by eauto| |by eauto 6].
        right. split_and!; [by left|lia|done].
      * intros [?|[[->|?] [? ?]]]; [by eauto| |by eauto 6].
        left; right. split; [done|lia].
    + split; [intros [?|(? & ? & ?)]; by eauto|].
      intros [?|[[Heq|?] [? Hx]]]; [by left| |by eauto]. congruence.
Qed.

Lemma scanCols_NoDup cs cells :
  NoDup cells →
  NoDup (fold_left (λ acc c, if isColFull grid gridSize c then pushCol gridSize c acc else acc) cs cells).
Proof.
  revert cells; induction cs as [|c cs IH]; intros cells Hcells; cbn [fold_left]; [done|].
  apply IH. destruct (isColFull grid gridSize c); [|done]. by apply pushCol_NoDup.
Qed.

End FlashFacts.

Lemma isNotNull_true v : isNotNull v = true ↔ v ≠ Null.
Proof. destruct v; cbn; split; congruence. Qed.

Lemma getCell_nat (cells : list cell) (c : nat) :
  getCell cells (Z.of_nat c) = default Undefined (cells !! c).
Proof.
  unfold getCell. rewrite Nat2Z.id.
  destruct (Z.leb_spec 0 (Z.of_nat c)); [done|lia].
Qed.

Lemma getRow_nat (grid : list (list cell)) (r : nat) :
  GameBoard.getRow grid (Z.of_nat r) = default [] (grid !! r).
Proof.
  unfold GameBoard.getRow. rewrite Nat2Z.id.
  destruct (Z.leb_spec 0 (Z.of_nat r)); [done|lia].
Qed.

Lemma board8_getRow grid r :
  board8 grid → (r < 8)%nat → length (GameBoard.getRow grid (Z.of_nat r)) = 8%nat.
Proof.
  intros [Hlen Hrows] Hr. rewrite getRow_nat.
  destruct (grid !! r) as [cells|] eqn:Hlook.
  - cbn. by apply (Forall_lookup_1 _ _ _ _ Hrows Hlook).
  - apply lookup_ge_None in Hlook. lia.
Qed.

Lemma isRowFull_complete grid r :
  board8 grid → (r < 8)%nat →
  GameBoard.isRowFull grid r = true ↔ rowComplete grid r.
Proof.
  intros Hb Hr. pose proof (board8_getRow grid r Hb Hr) as Hlen.
  unfold GameBoard.isRowFull, rowComplete, GameBoard.get.
  rewrite forallb_forall. split.
  - intros Hall c Hc. rewrite getCell_nat.
    destruct (GameBoard.getRow grid (Z.of_nat r) !! c) as [v|] eqn:Hlook.
    + cbn. apply isNotNull_true, Hall, list_elem_of_In.
      by apply list_elem_of_lookup_2 in Hlook.
    + apply lookup_ge_None in Hlook. lia.
  - intros Hall v [c Hlook]%list_elem_of_In%list_elem_of_lookup_1.
    pose proof (lookup_lt_Some _ _ _ Hlook) as Hc.
    apply isNotNull_true. specialize (Hall c ltac:(lia)).
    by rewrite getCell_nat, Hlook in Hall.
Qed.

Lemma isColFull_complete grid c :
  GameBoard.isColFull grid 8 c = true ↔ colComplete grid c.
Proof.
  unfold GameBoard.isColFull, colComplete.
  rewrite forallb_forall. split.
  - intros Hall r Hr. apply isNotNull_true, Hall, in_map_iff.
    exists r. split; [done|]. apply in_seq. lia.
  - intros Hall v [r [<- Hr%in_seq]]%in_map_iff.
    apply isNotNull_true, Hall. lia.
Qed.

Lemma flashingCells_NoDup grid : NoDup (GameBoard.flashingCells grid).
Proof.
  unfold GameBoard.flashingCells, GameBoard.scanCols, GameBoard.scanRows.
  apply scanCols_NoDup, scanRows_NoDup; [apply NoDup_seq|apply NoDup_nil_2|].
  by intros x Hx%elem_of_nil.
Qed.

Lemma flashingCells_elem grid r c :
  board8 grid →
  GameBoard.mkFlash r c ∈ GameBoard.flashingCells grid
  ↔ (r < 8)%nat ∧ (c < 8)%nat ∧ (rowComplete grid r ∨ colComplete grid c).
Proof.
  intros Hb. pose proof Hb as [Hlen _].
  unfold GameBoard.flashingCells, GameBoard.scanCols, GameBoard.scanRows.
  rewrite Hlen, scanCols_elem, scanRows_elem, !elem_of_seq; cbn [GameBoard.row GameBoard.col].
  rewrite isColFull_complete. split.
  - intros [[H%elem_of_nil|(Hr & Hc & Hfull)]|(Hc & Hr & Hfull)]; [done| |].
    + apply isRowFull_complete in Hfull; [|done|lia]. split_and!; [lia|lia|by left].
    + split_and!; [lia|lia|by right].
  - intros (Hr & Hc & [Hfull|Hfull]).
    + left; right. split_and!; try lia. by apply isRowFull_complete.
    + right. split_and!; try lia. done.
Qed.

(** C6. For an 8x8 board the flashing-cell array lists no position twice;
    it holds exactly the cells of the complete rows and complete columns;
    and each such cell, in particular one where a complete row crosses a
    complete column, occurs in it exactly once. *)
Theorem flashingCells_each_cell_once (grid : list (list cell)) :
  board8 grid →
  NoDup (GameBoard.flashingCells grid)
  ∧ (∀ r c, GameBoard.mkFlash r c ∈ GameBoard.flashingCells grid
            ↔ (r < 8)%nat ∧ (c < 8)%nat ∧ (rowComplete grid r ∨ colComplete grid c))
  ∧ (∀ r c, (r < 8)%nat → (c < 8)%nat → rowComplete grid r ∨ colComplete grid c →
            count_occ GameBoard.FlashCell_eq_dec (GameBoard.flashingCells grid)
              (GameBoard.mkFlash r c) = 1%nat).
Proof.
  intros Hb. split_and!.
  - apply flashingCells_NoDup.
  - intros r c. by apply flashingCells_elem.
  - intros r c Hr Hc Hfull.
    apply NoDup_count_occ'; [apply NoDup_ListNoDup, flashingCells_NoDup|].
    apply list_elem_of_In, flashingCells_elem; auto.
Qed.

(** ** App: the points of a turn *)





(** What the doubles do from 2^53 on: with one block placed, one line
    cleared and a streak of 2^53, the streak stays 2^53 and the total is
    90071992547410016, where the integers give 2^53 + 1 and
    90071992547410030. *)
Example turnScoreNumber_at_2_53 :
  App.turnScoreNumber 1 1 (2 ^ 53)
  = App.mkTurn 10 90071992547410000 (2 ^ 53) 90071992547410016
  ∧ App.turnScore 1 1 (2 ^ 53)
    = App.mkTurn 10 90071992547410020 (2 ^ 53 + 1) 90071992547410030.
Proof. split; vm_compute; reflexivity. Qed.


(** ** App: the placement loop *)

Lemma bind_Ok {A B} (m : M A) (k : A → M B) w a w' :
  m w = (Ok a, w') → bind m k w = k a w'.
Proof. unfold bind. by intros ->. Qed.

Lemma bind_Throw {A B} (m : M A) (k : A → M B) w w' :
  m w = (Throw, w') → bind m k w = (Throw, w').
Proof. unfold bind. by intros ->. Qed.

Lemma writesInBounds_ret {A} (a : A) : writesInBounds (ret a).
Proof. intros w. exists []. by rewrite app_nil_r. Qed.

Lemma writesInBounds_bind {A B} (m : M A) (k : A → M B) :
  writesInBounds m → (∀ a, writesInBounds (k a)) → writesInBounds (bind m k).
Proof.
  intros Hm Hk w. destruct (Hm w) as (new1 & Hw1 & Hall1).
  unfold bind. destruct (m w) as [[a|] w1]; cbn in *.
  - destruct (Hk a w1) as (new2 & Hw2 & Hall2).
    exists (new1 ++ new2). rewrite Hw2, Hw1, app_assoc. split; [done|].
    by apply Forall_app.
  - by exists new1.
Qed.

Lemma writesInBounds_forEach {A} (arr : list A) (f : A → M unit) :
  (∀ x, writesInBounds (f x)) → writesInBounds (forEach arr f).
Proof.
  intros Hf. induction arr as [|x arr IH]; cbn.
  - apply writesInBounds_ret.
  - by apply writesInBounds_bind.
Qed.

Lemma writeCell_writes g i j v w :
  writes (writeCell g i j v w).2 = writes w ++ [(i, j)].
Proof.
  unfold writeCell. destruct (outers w !! g) as [rows|]; [|done].
  destruct (index rows i) as [r|]; [|done].
  by destruct (rowsOf w !! r).
Qed.

Lemma writesInBounds_placeBlock newGrid shape rowIndex colIndex b :
  writesInBounds (App.placeBlock newGrid shape rowIndex colIndex b).
Proof.
  unfold App.placeBlock, App.GRID_SIZE.
  destruct (_ && _ && _ && _) eqn:Hguard; [|apply writesInBounds_ret].
  intros w. exists [(rowIndex + b.1, colIndex + b.2)].
  split; [apply writeCell_writes|].
  apply Forall_singleton. unfold inBounds; cbn.
  rewrite !andb_true_iff, !Z.leb_le, !Z.ltb_lt in Hguard. lia.
Qed.

Lemma spread_writes grid w : writes (spread grid w).2 = writes w.
Proof. unfold spread. by destruct (outers w !! grid). Qed.

(** C10. Whatever the shape and the anchor, and whatever the store, every
    grid index the placement loop writes to has its row and its column in
    0..7. *)
Theorem placeOnGrid_writes_in_bounds (grid : loc) (shape : Shape)
    (rowIndex colIndex : Z) (w : World) :
  ∃ new, writes (App.placeOnGrid grid shape rowIndex colIndex w).2 = writes w ++ new
         ∧ Forall inBounds new.
Proof.
  revert w. change (writesInBounds (App.placeOnGrid grid shape rowIndex colIndex)).
  unfold App.placeOnGrid. apply writesInBounds_bind.
  - intros w. exists []. by rewrite app_nil_r, spread_writes.
  - intros newGrid. apply writesInBounds_bind; [|intros; apply writesInBounds_ret].
    apply writesInBounds_forEach. intros b. apply writesInBounds_placeBlock.
Qed.

(** ** App: the place-shape handler *)

Lemma index_Some {A} (arr : list A) (i : Z) (x : A) :
  index arr i = Some x ↔ 0 ≤ i ∧ arr !! Z.to_nat i = Some x.
Proof.
  unfold index. destruct (Z.leb_spec 0 i); split; try done; intros []; [done|lia].
Qed.

(** With a live selection, [splice(selected, 1)] removes that element and
    nothing else. *)
Lemma splice1_live {A} (arr : list A) (selected : Z) (x : A) :
  index arr selected = Some x →
  App.splice1 arr selected
  = take (Z.to_nat selected) arr ++ drop (S (Z.to_nat selected)) arr.
Proof.
  intros [Hpos Hlook]%index_Some. apply lookup_lt_Some in Hlook.
  unfold App.splice1; cbn zeta.
  destruct (Z.ltb_spec selected 0); [lia|].
  rewrite (Z.min_l selected) by lia. rewrite (Z.min_l 1) by lia.
  by replace (Z.to_nat (selected + 1)) with (S (Z.to_nat selected)) by lia.
Qed.

Section HandlerFacts.

Context `{L : GameLogic}.

Lemma allocRows_Ok n w : ∃ rows w', App.allocRows n w = (Ok rows, w').
Proof.
  revert w; induction n as [|n IH]; intros w; cbn [App.allocRows]; [by eexists _, _|].
  unfold bind at 1.
  destruct (allocRow _ w) as [res w1] eqn:Halloc.
  unfold allocRow in Halloc. injection Halloc as <- Hw1.
  destruct (IH w1) as (rows & w' & Hrows).
  rewrite (bind_Ok _ _ _ _ _ Hrows). by eexists _, _.
Qed.

Lemma resetGame_Ok st w :
  ∃ g shapes w', App.resetGame st w
                 = (Ok (App.mkState 0 (App.highScore st) g shapes None false 0), w').
Proof.
  unfold App.resetGame, App.emptyGrid.
  destruct (allocRows_Ok (Z.to_nat App.GRID_SIZE) w) as (rows & w1 & Hrows).
  unfold bind. rewrite Hrows. cbn. unfold App.generate; cbn.
  destruct (generateShapes 3 (rng w1)) as [shapes seed]. cbn. by eexists _, _, _.
Qed.

(** The pieces after a placement: the rest of the batch, or a new batch
    when nothing is left. *)
Lemma nextShapes_inv avail selected w res w' :
  App.nextShapes avail selected w = (res, w') →
  (App.splice1 avail selected ≠ [] ∧ res = Ok (App.splice1 avail selected) ∧ w' = w)
  ∨ (App.splice1 avail selected = [] ∧ res = Ok (generateShapes 3 (rng w)).1).
Proof.
  unfold App.nextShapes. destruct (App.splice1 avail selected) as [|x rest]; cbn.
  - unfold App.generate. destruct (generateShapes 3 (rng w)) as [shapes seed].
    intros [= <- <-]. by right.
  - unfold ret. intros [= <- <-]. by left.
Qed.

(** What the handler does after the guards, step by step. *)
Lemma handlePlaceShape_accepted r c st w selected shape res w' :
  accepted w st r c selected shape →
  App.handlePlaceShape r c st w = (res, w') →
  res = Throw
  ∨ ∃ newGrid w1 updatedGrid clearedLines positions w2 shapes,
      App.placeOnGrid (App.grid st) shape r c w = (Ok newGrid, w1)
      ∧ clearLines newGrid w1 = (Ok (updatedGrid, clearedLines, positions), w2)
      ∧ App.nextShapes (App.availableShapes st) selected w2 = (Ok shapes, w')
      ∧ res = Ok (App.mkState
                    (App.score st + App.totalPointsScored
                       (App.turnScore (Z.of_nat (length (blocks shape)))
                          clearedLines (App.streak st)))
                    (App.highScore st) updatedGrid shapes None false
                    (App.newStreak
                       (App.turnScore (Z.of_nat (length (blocks shape)))
                          clearedLines (App.streak st)))).
Proof.
  intros (Hsel & Hover & Hshape & Hcan). unfold App.handlePlaceShape.
  rewrite Hsel, Hover, Hshape, Hcan. unfold bind at 1.
  destruct (App.placeOnGrid _ _ _ _ w) as [[newGrid|] w1] eqn:Hplace;
    [|intros [= <- <-]; by left].
  unfold bind at 1.
  destruct (clearLines newGrid w1) as [[[[updatedGrid clearedLines] positions]|] w2] eqn:Hclear;
    [|intros [= <- <-]; by left].
  unfold bind at 1.
  destruct (App.nextShapes _ _ w2) as [[shapes|] w3] eqn:Hnext;
    [|intros [= <- <-]; by left].
  unfold ret. intros [= <- <-]. right.
  by eexists newGrid, w1, updatedGrid, clearedLines, positions, w2, shapes.
Qed.

(** Any run of the handler: nothing happens, or it raises, or the click
    was accepted. *)
Lemma handlePlaceShape_inv r c st w res w' :
  App.handlePlaceShape r c st w = (res, w') →
  (res = Ok st ∧ w' = w) ∨ res = Throw
  ∨ ∃ selected shape, accepted w st r c selected shape.
Proof.
  unfold App.handlePlaceShape.
  destruct (App.selectedShape st) as [selected|] eqn:Hsel;
    [|intros [= <- <-]; by left].
  destruct (App.gameOver st) eqn:Hover; [intros [= <- <-]; by left|].
  destruct (index _ selected) as [shape|] eqn:Hshape;
    [|intros [= <- <-]; right; by left].
  destruct (checkPlacement _ shape r c) eqn:Hcan; [|intros [= <- <-]; by left].
  intros _. right; right. by exists selected, shape.
Qed.

End HandlerFacts.

Section GameFacts.

Context `{L : GameLogic}.

(** C4. A click that is turned down changes nothing: the handler returns
    the state it was given and leaves the store (hence every board cell)
    as it was, so board, score, streak, pieces and status are unchanged. *)
Theorem rejected_click_changes_nothing (w : World) (st : App.State) (r c : Z) :
  rejected w st r c →
  App.handlePlaceShape r c st w = (Ok st, w)
  ∧ App.step (App.CellClick r c) (w, st) = (w, st).
Proof.
  intros Hrej.
  assert (App.handlePlaceShape r c st w = (Ok st, w)) as Hnoop.
  { unfold App.handlePlaceShape.
    destruct Hrej as [Hsel|[Hover|(selected & shape & Hsel & Hshape & Hcan)]].
    - by rewrite Hsel.
    - rewrite Hover. by destruct (App.selectedShape st).
    - rewrite Hsel. destruct (App.gameOver st); [done|].
      rewrite Hshape. by rewrite Hcan. }
  split; [done|]. unfold App.step, App.commit. by rewrite Hnoop.
Qed.

(** C5. An accepted placement removes exactly the selected piece, the
    others staying in order; when pieces are left they are the new set as
    they are; when none is left the new set is a batch from
    [generateShapes(3)], of 3 shapes; so the new size is the old size minus
    one, or 3. The size of a generated batch is the generator's contract. *)
Theorem placement_consumes_selected_piece (w : World) (st : App.State) (r c : Z)
    (selected : Z) (shape : Shape) (st' : App.State) (w' : World) :
  (∀ seed, length (generateShapes 3 seed).1 = 3%nat) →
  accepted w st r c selected shape →
  App.handlePlaceShape r c st w = (Ok st', w') →
  let avail := App.availableShapes st in
  let rest := take (Z.to_nat selected) avail ++ drop (S (Z.to_nat selected)) avail in
  avail !! Z.to_nat selected = Some shape
  ∧ (rest ≠ [] → App.availableShapes st' = rest)
  ∧ (rest = [] → (∃ seed, App.availableShapes st' = (generateShapes 3 seed).1)
                 ∧ length (App.availableShapes st') = 3%nat)
  ∧ (S (length (App.availableShapes st')) = length avail
     ∨ length (App.availableShapes st') = 3%nat).
Proof.
  intros Hgen Hacc Hrun avail rest.
  pose proof Hacc as (_ & _ & Hshape & _).
  pose proof (splice1_live _ _ _ Hshape) as Hsplice. fold avail rest in Hsplice.
  apply index_Some in Hshape as [Hpos Hlook]. fold avail in Hlook.
  destruct (handlePlaceShape_accepted _ _ _ _ _ _ _ _ Hacc Hrun)
    as [?|(newGrid & w1 & updatedGrid & clearedLines & positions & w2 & shapes
           & _ & _ & Hnext & [= ->])]; [done|].
  cbn [App.availableShapes]. fold avail in Hnext.
  apply nextShapes_inv in Hnext. rewrite Hsplice in Hnext.
  assert (S (length rest) = length avail) as Hlen.
  { pose proof (lookup_lt_Some _ _ _ Hlook). unfold rest.
    rewrite length_app, length_take, length_drop. lia. }
  destruct Hnext as [(Hne & [= ->] & _)|(Hnil & [= ->])].
  - split_and!; [done|done|done|by left].
  - split_and!; [done|done| |by right]. intros _. split; [by eexists|apply Hgen].
Qed.

Lemma click_keeps_status r c w st :
  App.highScore (App.step (App.CellClick r c) (w, st)).2 = App.highScore st
  ∧ App.gameOver (App.step (App.CellClick r c) (w, st)).2 = App.gameOver st.
Proof.
  unfold App.step, App.commit.
  destruct (App.handlePlaceShape r c st w) as [[st1|] w1] eqn:Hrun; [|done].
  destruct (handlePlaceShape_inv _ _ _ _ _ _ Hrun)
    as [[[= ->] _]|[?|(selected & shape & Hacc)]]; [done|done|].
  destruct (handlePlaceShape_accepted _ _ _ _ _ _ _ _ Hacc Hrun)
    as [?|(? & ? & ? & ? & ? & ? & ? & _ & _ & _ & [= ->])]; [done|].
  destruct Hacc as (_ & Hover & _). by rewrite Hover.
Qed.

Lemma reset_fields w st :
  App.highScore (App.commit st (App.resetGame st) w).2 = App.highScore st
  ∧ App.gameOver (App.commit st (App.resetGame st) w).2 = false
  ∧ App.score (App.commit st (App.resetGame st) w).2 = 0
  ∧ App.streak (App.commit st (App.resetGame st) w).2 = 0.
Proof.
  unfold App.commit.
  destruct (resetGame_Ok st w) as (g & shapes & w' & ->). by cbn.
Qed.

(** C7. In a step of the game the high score changes only when that step
    takes the game from playing to game over with the score strictly above
    the stored high score, and then it becomes the score; every other step
    of the game (selections, placements with or without a new batch, checks
    that leave the game playing, resets) leaves it as it is. *)
Theorem highScore_changes_only_at_game_over (ev : App.event) (w : World) (st : App.State) :
  App.gameplay ev = true →
  let st' := (App.step ev (w, st)).2 in
  (App.gameOver st = false → App.gameOver st' = true →
   App.score st > App.highScore st → App.highScore st' = App.score st)
  ∧ (App.highScore st' ≠ App.highScore st →
     ev = App.CheckGameOver ∧ App.gameOver st = false ∧ App.gameOver st' = true
     ∧ App.score st > App.highScore st ∧ App.highScore st' = App.score st).
Proof.
  intros Hplay. destruct ev as [i|r c| | |]; [| | | |discriminate Hplay]; cbn zeta.
  - cbn. split; [congruence|done].
  - destruct (click_keeps_status r c w st) as [-> ->]. split; [congruence|done].
  - cbn. unfold App.gameOverEffect.
    destruct (Z.of_nat _ >? 0); cbn [andb]; [|split; [congruence|done]].
    destruct (App.gameOver st) eqn:Hover; cbn [negb]; [split; [congruence|done]|].
    rewrite ?Hover.
    destruct (checkGameOver _ _); [|rewrite Hover; split; [congruence|done]].
    cbn. destruct (Z.gtb_spec (App.score st) (App.highScore st)).
    + split; [done|]. intros _. split_and!; [done|done|done|lia|done].
    + split; [intros; lia|done].
  - cbn [App.step]. destruct (reset_fields w st) as (-> & -> & _).
    split; [congruence|done].
Qed.

Lemma turnScore_nonneg (b c s : Z) :
  0 ≤ b → 0 ≤ s →
  0 ≤ App.totalPointsScored (App.turnScore b c s)
  ∧ 0 ≤ App.newStreak (App.turnScore b c s).
Proof.
  intros Hb Hs. unfold App.turnScore.
  destruct (Z.gtb_spec c 0); cbn; split; nia.
Qed.

Lemma click_counters r c w st :
  counters_ok (w, st) →
  App.score st ≤ App.score (App.step (App.CellClick r c) (w, st)).2
  ∧ 0 ≤ App.streak (App.step (App.CellClick r c) (w, st)).2.
Proof.
  intros [Hscore Hstreak]; cbn in Hscore, Hstreak.
  unfold App.step, App.commit.
  destruct (App.handlePlaceShape r c st w) as [[st1|] w1] eqn:Hrun; [|cbn; lia].
  destruct (handlePlaceShape_inv _ _ _ _ _ _ Hrun)
    as [[[= ->] _]|[?|(selected & shape & Hacc)]]; [cbn; lia|done|].
  destruct (handlePlaceShape_accepted _ _ _ _ _ _ _ _ Hacc Hrun)
    as [?|(? & ? & ? & clearedLines & ? & ? & ? & _ & _ & _ & [= ->])]; [done|].
  cbn [snd App.score App.streak].
  pose proof (turnScore_nonneg (Z.of_nat (length (blocks shape)))
                clearedLines (App.streak st)). lia.
Qed.

Lemma step_counters ev c :
  counters_ok c →
  counters_ok (App.step ev c)
  ∧ (ev ≠ App.PlayAgain → App.score c.2 ≤ App.score (App.step ev c).2).
Proof.
  destruct c as [w st]. intros Hok. pose proof Hok as [Hscore Hstreak].
  cbn in Hscore, Hstreak. destruct ev as [i|r c| | |].
  - cbn. unfold counters_ok; cbn. lia.
  - pose proof (click_counters r c w st Hok). unfold counters_ok. cbn [snd] in *. lia.
  - cbn. unfold counters_ok, App.gameOverEffect; cbn.
    destruct (_ && _); [|lia]. destruct (checkGameOver _ _); cbn; lia.
  - cbn [App.step]. destruct (reset_fields w st) as (_ & _ & Hs & Hk).
    unfold counters_ok. rewrite Hs, Hk. split; [split; lia|]. intros Hne. by destruct Hne.
  - cbn. unfold counters_ok; cbn. lia.
Qed.

Lemma reachable_counters c : App.reachable c → counters_ok c.
Proof.
  induction 1 as [w st|ev c _ IH].
  - destruct (reset_fields w st) as (_ & _ & Hs & Hk). unfold counters_ok.
    rewrite Hs, Hk. lia.
  - by apply step_counters.
Qed.

Lemma run_counters evs c :
  counters_ok c → App.PlayAgain ∉ evs →
  counters_ok (App.run evs c) ∧ App.score c.2 ≤ App.score (App.run evs c).2.
Proof.
  revert c; induction evs as [|ev evs IH]; intros c Hok Hno; cbn.
  - split; [done|lia].
  - apply not_elem_of_cons in Hno as [Hev Hno].
    destruct (step_counters ev c Hok) as [Hok' Hle].
    destruct (IH _ Hok' Hno) as [Hok'' Hle']. split; [done|].
    specialize (Hle ltac:(congruence)). unfold App.run in Hle'. lia.
Qed.

(** C8. In every state of a game the score is at least 0; the points of a
    placement are at least 0; no step other than a new game lowers the
    score, so after any sequence of such steps the score is at least what
    it was; and a new game sets it to 0. *)
Theorem score_never_decreases_within_a_game (c : World * App.State) :
  App.reachable c →
  0 ≤ App.score c.2
  ∧ (∀ (blockCount : nat) (clearedLines : Z),
       0 ≤ App.totalPointsScored
             (App.turnScore (Z.of_nat blockCount) clearedLines (App.streak c.2)))
  ∧ (∀ ev, ev ≠ App.PlayAgain → App.score c.2 ≤ App.score (App.step ev c).2)
  ∧ (∀ evs, App.PlayAgain ∉ evs → App.score c.2 ≤ App.score (App.run evs c).2)
  ∧ App.score (App.step App.PlayAgain c).2 = 0.
Proof.
  intros Hreach. pose proof (reachable_counters c Hreach) as Hok.
  pose proof Hok as [Hscore Hstreak]. split_and!.
  - done.
  - intros b k. apply turnScore_nonneg; lia.
  - intros ev Hev. by apply step_counters.
  - intros evs Hno. by apply run_counters.
  - destruct c as [w st]. cbn [App.step].
    by destruct (reset_fields w st) as (_ & _ & -> & _).
Qed.

Lemma step_SelectShape i w st :
  App.step (App.SelectShape i) (w, st) = (w, App.handleShapeSelect i st).
Proof. reflexivity. Qed.

Lemma step_CheckGameOver w st :
  App.step App.CheckGameOver (w, st) = (w, App.gameOverEffect w st).
Proof. reflexivity. Qed.

Lemma step_PlayAgain w st :
  App.step App.PlayAgain (w, st) = App.commit st (App.resetGame st) w.
Proof. reflexivity. Qed.

Lemma step_ResetHighScore w st :
  App.step App.ResetHighScore (w, st) = (w, App.clearHighScore st).
Proof. reflexivity. Qed.

Lemma gameOverEffect_fires w st :
  App.gameOver st = false → App.gameOver (App.gameOverEffect w st) = true →
  App.availableShapes st ≠ []
  ∧ checkGameOver (readGrid w (App.grid st)) (App.availableShapes st) = true.
Proof.
  intros Hplaying. unfold App.gameOverEffect.
  destruct (Z.gtb_spec (Z.of_nat (length (App.availableShapes st))) 0) as [Hlen|Hlen];
    cbn [andb]; [|congruence].
  rewrite Hplaying; cbn [negb].
  destruct (checkGameOver _ _) eqn:Hcheck; [|congruence].
  intros _. split; [|done]. intros Hnil. rewrite Hnil in Hlen. cbn in Hlen. lia.
Qed.

Lemma gameOverEffect_no_pieces w st :
  App.availableShapes st = [] → App.gameOverEffect w st = st.
Proof. intros Hempty. unfold App.gameOverEffect. by rewrite Hempty. Qed.

(** C9. A step takes the game from playing to game over only as the
    game-over check, with at least one piece available, and on the verdict
    of [checkGameOver] for the pieces of that state; with no piece
    available the check does nothing; and a placement that uses up the last
    piece commits the batch of [generateShapes(3)], not the empty set, so
    the next check is made against that batch. *)
Theorem no_game_over_on_empty_piece_set (ev : App.event) (w : World) (st : App.State) :
  (App.gameOver st = false → App.gameOver (App.step ev (w, st)).2 = true →
   ev = App.CheckGameOver
   ∧ App.availableShapes st ≠ []
   ∧ checkGameOver (readGrid w (App.grid st)) (App.availableShapes st) = true)
  ∧ (App.availableShapes st = [] → App.step App.CheckGameOver (w, st) = (w, st))
  ∧ (∀ r c selected shape st' w',
       ev = App.CellClick r c →
       accepted w st r c selected shape →
       App.handlePlaceShape r c st w = (Ok st', w') →
       App.splice1 (App.availableShapes st) selected = [] →
       ∃ seed, App.availableShapes st' = (generateShapes 3 seed).1).
Proof.
  split_and!.
  - intros Hplaying. destruct ev as [i|r c| | |].
    + rewrite step_SelectShape. cbn [snd App.handleShapeSelect App.gameOver]. congruence.
    + destruct (click_keeps_status r c w st) as [_ ->]. congruence.
    + rewrite step_CheckGameOver. cbn [snd]. intros Hover.
      by destruct (gameOverEffect_fires w st Hplaying Hover).
    + rewrite step_PlayAgain.
      destruct (reset_fields w st) as (_ & -> & _). discriminate.
    + rewrite step_ResetHighScore. cbn [snd App.clearHighScore App.gameOver]. congruence.
  - intros Hempty. by rewrite step_CheckGameOver, gameOverEffect_no_pieces.
  - intros r c selected shape st' w' _ Hacc Hrun Hlast.
    destruct (handlePlaceShape_accepted _ _ _ _ _ _ _ _ Hacc Hrun)
      as [?|(? & ? & ? & ? & ? & w2 & shapes & _ & _ & Hnext & [= ->])]; [done|].
    apply nextShapes_inv in Hnext as [(Hne & _)|(_ & [= ->])]; [done|].
    by exists (rng w2).
Qed.

End GameFacts.

(** ** App: the placement works on the rows of the input grid *)

Lemma getCell_setCell (cells : list cell) (j j' : nat) (v : cell) :
  getCell (setCell cells j' v) (Z.of_nat j)
  = if decide (j = j') then v else getCell cells (Z.of_nat j).
Proof.
  rewrite !getCell_nat. unfold setCell.
  destruct (Nat.ltb_spec j' (length cells)) as [Hin|Hout].
  - case_decide as Heq.
    + subst j'. by rewrite list_lookup_insert_eq.
    + by rewrite list_lookup_insert_ne.
  - destruct (decide (j < length cells)%nat) as [Hj|Hj].
    + rewrite lookup_app_l by done. case_decide; [lia|done].
    + rewrite lookup_app_r by lia.
      rewrite (lookup_ge_None_2 cells j) by lia. cbn [default].
      destruct (decide (j - length cells < j' - length cells)%nat) as [Hlt|Hge].
      * rewrite lookup_app_l by (rewrite length_replicate; lia).
        rewrite lookup_replicate_2 by lia. case_decide; [lia|done].
      * rewrite lookup_app_r by (rewrite length_replicate; lia).
        rewrite length_replicate. case_decide as Heq.
        -- subst j'. by rewrite Nat.sub_diag.
        -- rewrite lookup_ge_None_2; [done|]. cbn. lia.
Qed.

(** [grid[i][j]] in terms of the store. *)
Lemma readCell_store w g rows (i j : nat) r :
  outers w !! g = Some rows → rows !! i = Some r →
  readCell w g (Z.of_nat i) (Z.of_nat j)
  = getCell (default [] (rowsOf w !! r)) (Z.of_nat j).
Proof.
  intros Hg Hr. unfold readCell, GameBoard.get, readGrid. rewrite Hg.
  rewrite getRow_nat, list_lookup_fmap, Hr. done.
Qed.

(** A write that completes: the written cell holds the value, and a cell
    that already held that value still does (also when two entries of the
    outer array are one row object). *)
Lemma writeCell_Ok g (i j : nat) v w w' :
  writeCell g (Z.of_nat i) (Z.of_nat j) v w = (Ok tt, w') →
  outers w' = outers w
  ∧ readCell w' g (Z.of_nat i) (Z.of_nat j) = v
  ∧ (∀ i' j' : nat, readCell w g (Z.of_nat i') (Z.of_nat j') = v →
                    readCell w' g (Z.of_nat i') (Z.of_nat j') = v).
Proof.
  unfold writeCell.
  destruct (outers w !! g) as [rows|] eqn:Hg; [|done].
  destruct (index rows (Z.of_nat i)) as [r|] eqn:Hr; [|done].
  destruct (rowsOf w !! r) as [cells|] eqn:Hcells; [|done].
  intros [= <-]. apply index_Some in Hr as [_ Hr]. rewrite !Nat2Z.id in *.
  split; [done|]. split.
  - rewrite (readCell_store _ g rows i j r) by done. cbn [rowsOf].
    rewrite lookup_insert_eq. cbn [default id].
    rewrite getCell_setCell. by case_decide.
  - intros i' j'. unfold readCell at 1 2, GameBoard.get, readGrid. cbn [outers rowsOf].
    rewrite Hg, !getRow_nat, !list_lookup_fmap.
    destruct (rows !! i') as [r'|] eqn:Hr'; cbn [fmap option_fmap option_map default]; [|done].
    destruct (decide (r = r')) as [<-|Hne].
    + rewrite lookup_insert_eq, Hcells. cbn [default id].
      rewrite getCell_setCell. by case_decide.
    + by rewrite lookup_insert_ne.
Qed.

Lemma placeBlock_Ok newGrid shape rowIndex colIndex b w w' :
  App.placeBlock newGrid shape rowIndex colIndex b w = (Ok tt, w') →
  outers w' = outers w
  ∧ (inBounds (rowIndex + b.1, colIndex + b.2) →
     readCell w' newGrid (rowIndex + b.1) (colIndex + b.2) = Color (color shape))
  ∧ (∀ i' j' : nat,
       readCell w newGrid (Z.of_nat i') (Z.of_nat j') = Color (color shape) →
       readCell w' newGrid (Z.of_nat i') (Z.of_nat j') = Color (color shape)).
Proof.
  unfold App.placeBlock, App.GRID_SIZE, inBounds. cbn [fst snd].
  destruct (_ && _ && _ && _) eqn:Hguard.
  - rewrite !andb_true_iff, !Z.leb_le, !Z.ltb_lt in Hguard.
    rewrite <- (Z2Nat.id (rowIndex + b.1)), <- (Z2Nat.id (colIndex + b.2)) by lia.
    intros Hw. by destruct (writeCell_Ok _ _ _ _ _ _ Hw) as (? & ? & ?).
  - unfold ret. intros [= <-]. split_and!; [done| |done].
    intros Hin. rewrite !andb_false_iff, !Z.leb_gt, !Z.ltb_ge in Hguard. lia.
Qed.

Lemma placeLoop_Ok newGrid shape rowIndex colIndex bs w w' :
  forEach bs (App.placeBlock newGrid shape rowIndex colIndex) w = (Ok tt, w') →
  outers w' = outers w
  ∧ (∀ b, b ∈ bs → inBounds (rowIndex + b.1, colIndex + b.2) →
          readCell w' newGrid (rowIndex + b.1) (colIndex + b.2) = Color (color shape))
  ∧ (∀ i' j' : nat,
       readCell w newGrid (Z.of_nat i') (Z.of_nat j') = Color (color shape) →
       readCell w' newGrid (Z.of_nat i') (Z.of_nat j') = Color (color shape)).
Proof.
  revert w; induction bs as [|b bs IH]; intros w; cbn [forEach].
  - unfold ret. intros [= <-]. split_and!; [done| |done]. by intros b Hb%elem_of_nil.
  - unfold bind.
    destruct (App.placeBlock _ _ _ _ b w) as [[[]|] w1] eqn:Hblock; [|done].
    intros Hrest. destruct (placeBlock_Ok _ _ _ _ _ _ _ Hblock) as (Ho1 & Hset1 & Hkeep1).
    destruct (IH _ Hrest) as (Ho & Hset & Hkeep).
    split_and!; [congruence| |by auto].
    intros b' [->|Hb']%elem_of_cons Hin; [|by auto].
    specialize (Hset1 Hin). destruct Hin as [Hi Hj]; cbn [fst snd] in Hi, Hj.
    rewrite <- (Z2Nat.id (rowIndex + b.1)), <- (Z2Nat.id (colIndex + b.2)) in Hset1 |- * by lia.
    by apply Hkeep.
Qed.

(** The grid returned by the placement is another reference than the
    input, every target cell inside the grid holds the colour of the shape
    in it -- and the input grid reads the same as the returned one, because
    both outer arrays hold the same row objects. *)
Lemma placeOnGrid_shares_rows grid shape rowIndex colIndex w newGrid w' :
  App.placeOnGrid grid shape rowIndex colIndex w = (Ok newGrid, w') →
  newGrid ≠ grid
  ∧ (∀ b, b ∈ blocks shape → inBounds (rowIndex + b.1, colIndex + b.2) →
          readCell w' newGrid (rowIndex + b.1) (colIndex + b.2) = Color (color shape))
  ∧ readGrid w' grid = readGrid w' newGrid.
Proof.
  unfold App.placeOnGrid, bind, spread.
  destruct (outers w !! grid) as [rows|] eqn:Hg; [|done].
  unfold allocOuter. set (g1 := fresh (dom (outers w))).
  set (w1 := mkWorld _ _ _ _).
  destruct (forEach _ _ w1) as [[[]|] w2] eqn:Hloop; [|done].
  unfold ret. intros [= <- <-].
  destruct (placeLoop_Ok _ _ _ _ _ _ _ Hloop) as (Houters & Hset & _).
  assert (g1 ≠ grid) as Hne.
  { intros Heq. apply (is_fresh (dom (outers w))).
    change (g1 ∈ dom (outers w)). rewrite Heq.
    apply elem_of_dom. by rewrite Hg. }
  split_and!; [done|done|].
  unfold readGrid. rewrite Houters. subst w1; cbn [outers].
  by rewrite lookup_insert_eq, lookup_insert_ne, Hg.
Qed.

(** So after any placement that completes, the input grid itself holds the
    colour of the shape at every target cell inside the grid. *)
Corollary placeOnGrid_overwrites_input grid shape rowIndex colIndex w newGrid w' :
  App.placeOnGrid grid shape rowIndex colIndex w = (Ok newGrid, w') →
  ∀ b, b ∈ blocks shape → inBounds (rowIndex + b.1, colIndex + b.2) →
       readCell w' grid (rowIndex + b.1) (colIndex + b.2) = Color (color shape).
Proof.
  intros Hrun b Hb Hin.
  destruct (placeOnGrid_shares_rows _ _ _ _ _ _ _ Hrun) as (_ & Hset & Hsame).
  unfold readCell. rewrite Hsame. by apply Hset.
Qed.

(** C1, as the code behaves. On the empty board of a new game, placing the
    one-block red shape at (0, 0) returns a grid reference other than the
    input and with cell (0, 0) red; but the input grid, whose cell (0, 0)
    was empty before, reads red there afterwards: the placement has
    written into the input board. *)
Theorem placeOnGrid_writes_into_input_board :
  ∃ newGrid w',
    App.placeOnGrid (App.grid game0.2) (mkShape [(0, 0)] "red") 0 0 game0.1
    = (Ok newGrid, w')
    ∧ newGrid ≠ App.grid game0.2
    ∧ readCell w' newGrid 0 0 = Color "red"
    ∧ readCell game0.1 (App.grid game0.2) 0 0 = Null
    ∧ readCell w' (App.grid game0.2) 0 0 = Color "red".
Proof.
  destruct (App.placeOnGrid (App.grid game0.2) (mkShape [(0, 0)] "red") 0 0 game0.1)
    as [[newGrid|] w'] eqn:Hrun; [|vm_compute in Hrun; discriminate Hrun].
  destruct (placeOnGrid_shares_rows _ _ _ _ _ _ _ Hrun) as (Hne & Hset & Hsame).
  assert (readCell w' newGrid 0 0 = Color "red") as Hred.
  { apply (Hset (0, 0)); [by left|]. unfold inBounds; cbn. lia. }
  exists newGrid, w'. split_and!; [done|done|done|by vm_compute|].
  unfold readCell. by rewrite Hsame.
Qed.

(** ** The statements on concrete games *)

(** The intersection example of the specification: row 0 and column 0
    full give 15 flashing cells, (0, 0) first and only once. *)
Example flashingCells_crossBoard :
  GameBoard.flashingCells crossBoard
  = map (GameBoard.mkFlash 0) (seq 0 8) ++ map (λ r, GameBoard.mkFlash r 0) (seq 1 7).
Proof. reflexivity. Qed.

(** A square shape hanging over the corner: the preview says no, and the
    placement loop writes the one cell inside the grid only. *)
Example canPlace_over_the_corner :
  GameBoard.canPlace emptyBoard (mkShape [(0, 0); (0, 1); (1, 0); (1, 1)] "blue") 7 7 = false.
Proof. reflexivity. Qed.

Example placeOnGrid_over_the_corner :
  writes (App.placeOnGrid (App.grid game0.2)
            (mkShape [(0, 0); (0, 1); (1, 0); (1, 1)] "blue") 7 7 game0.1).2
  = [(7, 7)].
Proof. vm_compute. reflexivity. Qed.

(** The first turn of the mounted game: the five-block line at (0, 0)
    scores 50, two pieces remain, the game goes on. *)
Example first_turn :
  let c := App.run (H := SpecModel.logic)
             [App.SelectShape 0; App.CellClick 0 0; App.CheckGameOver] game0 in
  App.score c.2 = 50 ∧ length (App.availableShapes c.2) = 2%nat
  ∧ App.gameOver c.2 = false ∧ App.streak c.2 = 0.
Proof. vm_compute. done. Qed.

(** A first cleared line with three blocks placed: 30 + 100 points, and
    the streak starts. *)
Example turnScore_first_clear :
  App.totalPointsScored (App.turnScore 3 1 0) = 130
  ∧ App.newStreak (App.turnScore 3 1 0) = 1.
Proof. done. Qed.

Lemma generateBatch_length count seed :
  length (SpecModel.generateBatch count seed).1 = count.
Proof.
  revert seed; induction count as [|count IH]; intros seed; cbn; [done|].
  specialize (IH (SpecModel.nextSeed (SpecModel.nextSeed seed))).
  destruct (SpecModel.generateBatch count _) as [rest s3]. cbn in *. by rewrite IH.
Qed.

Lemma canPlace_iff_all_targets_free_witness :
  board8 emptyBoard
  ∧ (GameBoard.canPlace emptyBoard (mkShape [(0, 0); (0, 1)] "red") 0 0 = true ↔
     ∀ dr dc, (dr, dc) ∈ [(0, 0); (0, 1)] →
       0 ≤ 0 + dr < 8 ∧ 0 ≤ 0 + dc < 8 ∧ GameBoard.get emptyBoard (0 + dr) (0 + dc) = Null).
Proof.
  assert (board8 emptyBoard) as Hb by (split; [reflexivity|repeat constructor]).
  split; [exact Hb|].
  exact (canPlace_iff_all_targets_free emptyBoard (mkShape [(0, 0); (0, 1)] "red") 0 0 Hb).
Defined.

Lemma flashingCells_each_cell_once_witness :
  board8 crossBoard
  ∧ NoDup (GameBoard.flashingCells crossBoard)
  ∧ count_occ GameBoard.FlashCell_eq_dec (GameBoard.flashingCells crossBoard)
      (GameBoard.mkFlash 0 0) = 1%nat.
Proof.
  assert (board8 crossBoard) as Hb by (split; [reflexivity|repeat constructor]).
  destruct (flashingCells_each_cell_once crossBoard Hb) as (Hnodup & _ & Honce).
  split_and!; [exact Hb|exact Hnodup|].
  apply Honce; [lia|lia|]. left. intros c Hc.
  do 8 (destruct c as [|c]; [discriminate|]). lia.
Defined.

Lemma rejected_click_changes_nothing_witness :
  rejected (H := SpecModel.logic) game0.1 game0_selected 0 5
  ∧ App.step (H := SpecModel.logic) (App.CellClick 0 5) (game0.1, game0_selected)
    = (game0.1, game0_selected).
Proof.
  assert (rejected (H := SpecModel.logic) game0.1 game0_selected 0 5) as Hrej.
  { right; right.
    exists 0, (mkShape [(0, 0); (0, 1); (0, 2); (0, 3); (0, 4)] "orange").
    split_and!; vm_compute; reflexivity. }
  split; [exact Hrej|].
  exact (proj2 (rejected_click_changes_nothing (L := SpecModel.logic)
                  game0.1 game0_selected 0 5 Hrej)).
Defined.

Lemma placement_consumes_selected_piece_witness :
  let st' := (App.step (H := SpecModel.logic) (App.CellClick 0 0) (game0.1, game0_selected)).2 in
  App.availableShapes st'
  = take 0 (App.availableShapes game0_selected) ++ drop 1 (App.availableShapes game0_selected)
  ∧ (S (length (App.availableShapes st')) = length (App.availableShapes game0_selected)
     ∨ length (App.availableShapes st') = 3%nat).
Proof.
  intros st'.
  pose (w' := (App.step (H := SpecModel.logic) (App.CellClick 0 0) (game0.1, game0_selected)).1).
  destruct (placement_consumes_selected_piece (L := SpecModel.logic)
              game0.1 game0_selected 0 0 0
              (mkShape [(0, 0); (0, 1); (0, 2); (0, 3); (0, 4)] "orange") st' w')
    as (_ & Hrest & _ & Hsize).
  - intros seed. apply generateBatch_length.
  - split_and!; vm_compute; reflexivity.
  - vm_compute; reflexivity.
  - split; [|exact Hsize]. apply Hrest. vm_compute. discriminate.
Defined.

Lemma highScore_changes_only_at_game_over_witness :
  App.gameplay App.CheckGameOver = true
  ∧ App.highScore (App.step (H := SpecModel.logic) App.CheckGameOver (stuckWorld.1, stuck)).2
    = App.score stuck.
Proof.
  split; [reflexivity|].
  destruct (highScore_changes_only_at_game_over (L := SpecModel.logic)
              App.CheckGameOver stuckWorld.1 stuck eq_refl) as [Hset _].
  apply Hset.
  - reflexivity.
  - vm_compute; reflexivity.
  - vm_compute; reflexivity.
Defined.

Lemma score_never_decreases_within_a_game_witness :
  App.reachable (H := SpecModel.logic) game0
  ∧ 0 ≤ App.score game0.2
  ∧ App.score game0.2
    ≤ App.score (App.run (H := SpecModel.logic)
                   [App.SelectShape 0; App.CellClick 0 0; App.CheckGameOver] game0).2.
Proof.
  assert (App.reachable (H := SpecModel.logic) game0) as Hreach
    by exact (App.reach_mount (H := SpecModel.logic) world0 unmounted).
  destruct (score_never_decreases_within_a_game (L := SpecModel.logic) game0 Hreach)
    as (Hpos & _ & _ & Hrun & _).
  split_and!; [exact Hreach|exact Hpos|].
  apply Hrun. intros Hin. by repeat apply elem_of_cons in Hin as [?|Hin];
    [..|apply elem_of_nil in Hin].
Defined.

Lemma no_game_over_on_empty_piece_set_witness :
  App.gameOver stuck = false
  ∧ App.gameOver (App.step (H := SpecModel.logic) App.CheckGameOver (stuckWorld.1, stuck)).2 = true
  ∧ App.availableShapes stuck ≠ []
  ∧ checkGameOver (GameLogic := SpecModel.logic)
      (readGrid stuckWorld.1 (App.grid stuck)) (App.availableShapes stuck) = true.
Proof.
  assert (App.gameOver
            (App.step (H := SpecModel.logic) App.CheckGameOver (stuckWorld.1, stuck)).2
          = true) as Hover by (vm_compute; reflexivity).
  destruct (no_game_over_on_empty_piece_set (L := SpecModel.logic)
              App.CheckGameOver stuckWorld.1 stuck) as (Hfire & _ & _).
  destruct (Hfire eq_refl Hover) as (_ & Hne & Hcheck).
  split_and!; [reflexivity|exact Hover|exact Hne|exact Hcheck].
Defined.

(** * Further properties of the code *)

(** ** App: the board of a new game *)

Lemma map_constant {A B} (f : A → B) (l : list A) (y : B) :
  (∀ x, x ∈ l → f x = y) → map f l = replicate (length l) y.
Proof.
  induction l as [|x l IH]; intros Hall; cbn; [done|].
  rewrite (Hall x) by (by left). f_equal. apply IH. intros z Hz. apply Hall. by right.
Qed.

(** The rows of a new grid: as many as asked for, pairwise distinct, none
    of them in the store before, each an array of 8 nulls; the store is
    otherwise as it was. *)
Lemma allocRows_fresh n w :
  ∃ rows w',
    App.allocRows n w = (Ok rows, w')
    ∧ length rows = n ∧ NoDup rows
    ∧ (∀ r, r ∈ rows → rowsOf w !! r = None
                       ∧ rowsOf w' !! r = Some (replicate 8 Null))
    ∧ rowsOf w ⊆ rowsOf w'
    ∧ outers w' = outers w ∧ rng w' = rng w ∧ writes w' = writes w.
Proof.
  revert w; induction n as [|n IH]; intros w; cbn [App.allocRows].
  - exists [], w. split_and!; try done. { apply NoDup_nil_2. } by intros r Hr%elem_of_nil.
  - unfold bind at 1. unfold allocRow at 1.
    set (r := fresh (dom (rowsOf w))).
    set (w1 := mkWorld _ _ _ _).
    assert (rowsOf w !! r = None) as Hr.
    { apply not_elem_of_dom, is_fresh. }
    destruct (IH w1) as (rows & w' & Hrun & Hlen & Hnodup & Hrows & Hsub & Ho & Hg & Hw).
    rewrite (bind_Ok _ _ _ _ _ Hrun). unfold ret.
    assert (rowsOf w1 !! r = Some (replicate 8 Null)) as Hr1.
    { subst w1; cbn [rowsOf]. by rewrite lookup_insert_eq. }
    exists (r :: rows), w'. split_and!; try done.
    + cbn. by rewrite Hlen.
    + apply NoDup_cons. split; [|done].
      intros Hin. destruct (Hrows r Hin) as [Hnone _]. congruence.
    + intros r' [->|Hin]%elem_of_cons.
      * split; [done|]. by apply (lookup_weaken _ _ _ _ Hr1 Hsub).
      * destruct (Hrows r' Hin) as [Hnone Hsome]. split; [|done].
        subst w1; cbn [rowsOf] in Hnone.
        destruct (decide (r = r')) as [->|Hne];
          [by rewrite lookup_insert_eq in Hnone|by rewrite lookup_insert_ne in Hnone].
    + etrans; [|exact Hsub]. subst w1; cbn [rowsOf]. by apply insert_subseteq.
Qed.

(** X1. [resetGame] never raises. It returns a state with score 0,
    streak 0, no selection, the game playing and the high score as it was;
    its grid is a reference that was not in the store, to 8 pairwise
    distinct new row arrays, and reads as the empty 8x8 board; every object
    the store held is still there unchanged, and nothing is written to a
    grid. *)
Theorem resetGame_fresh_empty_board `{L : GameLogic} (st : App.State) (w : World) :
  ∃ g rows shapes w',
    App.resetGame st w
    = (Ok (App.mkState 0 (App.highScore st) g shapes None false 0), w')
    ∧ outers w !! g = None
    ∧ outers w' = <[g := rows]> (outers w)
    ∧ length rows = 8%nat ∧ NoDup rows
    ∧ (∀ r, r ∈ rows → rowsOf w !! r = None)
    ∧ rowsOf w ⊆ rowsOf w'
    ∧ readGrid w' g = emptyBoard
    ∧ shapes = (generateShapes 3 (rng w)).1
    ∧ writes w' = writes w.
Proof.
  unfold App.resetGame, App.emptyGrid.
  destruct (allocRows_fresh (Z.to_nat App.GRID_SIZE) w)
    as (rows & w1 & Hrun & Hlen & Hnodup & Hrows & Hsub & Ho & Hg & Hw).
  unfold bind at 1. unfold bind at 1. rewrite Hrun.
  unfold allocOuter. set (g := fresh (dom (outers w1))).
  unfold bind, App.generate; cbn [rng outers rowsOf writes].
  destruct (generateShapes 3 (rng w1)) as [shapes seed] eqn:Hgen. unfold ret.
  exists g, rows, shapes, (mkWorld (<[g:=rows]> (outers w1)) (rowsOf w1) seed (writes w1)).
  assert (outers w !! g = None) as Hfresh.
  { rewrite <- Ho. apply not_elem_of_dom, is_fresh. }
  split_and!; try done.
  - cbn [outers]. by rewrite Ho.
  - intros r Hr. by destruct (Hrows r Hr).
  - unfold readGrid; cbn [outers rowsOf]. rewrite lookup_insert_eq.
    rewrite (map_constant _ rows (replicate 8 Null)).
    + by rewrite Hlen.
    + intros r Hr. destruct (Hrows r Hr) as [_ ->]. done.
  - by rewrite <- Hg, Hgen.
Qed.

Lemma resetGame_generates `{L : GameLogic} (st : App.State) (w : World) :
  ∃ g shapes w',
    App.resetGame st w
    = (Ok (App.mkState 0 (App.highScore st) g shapes None false 0), w')
    ∧ shapes = (generateShapes 3 (rng w)).1.
Proof.
  unfold App.resetGame, App.emptyGrid.
  destruct (allocRows_fresh (Z.to_nat App.GRID_SIZE) w)
    as (rows & w1 & Hrun & _ & _ & _ & _ & _ & Hg & _).
  unfold bind at 1. unfold bind at 1. rewrite Hrun.
  unfold allocOuter, bind, App.generate; cbn [rng outers rowsOf writes].
  destruct (generateShapes 3 (rng w1)) as [shapes seed] eqn:Hgen. unfold ret.
  eexists _, shapes, _. split; [done|]. by rewrite <- Hg, Hgen.
Qed.

(** ** App: what a placement changes on a grid of distinct rows *)

(** A write changes no other cell of a grid whose rows are distinct
    objects. *)
Lemma writeCell_frame g (i j : nat) v w w' rows :
  writeCell g (Z.of_nat i) (Z.of_nat j) v w = (Ok tt, w') →
  outers w !! g = Some rows → NoDup rows →
  ∀ i' j' : nat, (i', j') ≠ (i, j) →
    readCell w' g (Z.of_nat i') (Z.of_nat j') = readCell w g (Z.of_nat i') (Z.of_nat j').
Proof.
  unfold writeCell. intros Hrun Hg Hnodup. rewrite Hg in Hrun.
  destruct (index rows (Z.of_nat i)) as [r|] eqn:Hr; [|done].
  destruct (rowsOf w !! r) as [cells|] eqn:Hcells; [|done].
  injection Hrun as <-. apply index_Some in Hr as [_ Hr]. rewrite !Nat2Z.id in *.
  intros i' j' Hne. unfold readCell, GameBoard.get, readGrid. cbn [outers rowsOf].
  rewrite Hg, !getRow_nat, !list_lookup_fmap.
  destruct (rows !! i') as [r'|] eqn:Hr'; cbn [fmap option_fmap option_map default]; [|done].
  destruct (decide (r = r')) as [<-|Hrr].
  - rewrite lookup_insert_eq, Hcells. cbn [default id].
    rewrite getCell_setCell. case_decide as Hj; [|done].
    pose proof (NoDup_lookup _ _ _ _ Hnodup Hr Hr'). congruence.
  - by rewrite lookup_insert_ne.
Qed.

Lemma placeLoop_frame newGrid shape rowIndex colIndex rows bs w w' :
  forEach bs (App.placeBlock newGrid shape rowIndex colIndex) w = (Ok tt, w') →
  outers w !! newGrid = Some rows → NoDup rows →
  ∀ i j : nat,
    (∀ b, b ∈ bs → inBounds (rowIndex + b.1, colIndex + b.2) →
          ¬ (rowIndex + b.1 = Z.of_nat i ∧ colIndex + b.2 = Z.of_nat j)) →
    readCell w' newGrid (Z.of_nat i) (Z.of_nat j) = readCell w newGrid (Z.of_nat i) (Z.of_nat j).
Proof.
  revert w; induction bs as [|b bs IH]; intros w; cbn [forEach].
  - unfold ret. by intros [= <-].
  - unfold bind.
    destruct (App.placeBlock _ _ _ _ b w) as [[[]|] w1] eqn:Hblock; [|done].
    intros Hrest Hg Hnodup i j Hmiss.
    destruct (placeBlock_Ok _ _ _ _ _ _ _ Hblock) as (Ho1 & _ & _).
    rewrite (IH w1 Hrest);
      [|by rewrite Ho1|done|intros b' Hb'; apply Hmiss; by right].
    clear IH Hrest. unfold App.placeBlock, App.GRID_SIZE in Hblock.
    destruct (_ && _ && _ && _) eqn:Hguard; [|by injection Hblock as <-].
    rewrite !andb_true_iff, !Z.leb_le, !Z.ltb_lt in Hguard.
    assert (inBounds (rowIndex + b.1, colIndex + b.2)) as Hin
      by (unfold inBounds; cbn; lia).
    specialize (Hmiss b ltac:(by left) Hin).
    rewrite <- (Z2Nat.id (rowIndex + b.1)), <- (Z2Nat.id (colIndex + b.2)) in Hblock by lia.
    apply (writeCell_frame _ _ _ _ _ _ _ Hblock Hg Hnodup).
    intros [= -> ->]. apply Hmiss. lia.
Qed.

(** X2. On a grid whose rows are distinct objects a placement that
    completes returns a grid in which the cells a block of the shape lands
    on hold the colour of the shape and every other cell is what the input
    held before. *)
Theorem placeOnGrid_changes_only_targets (grid : loc) (shape : Shape)
    (rowIndex colIndex : Z) (w : World) (rows : list loc) (newGrid : loc) (w' : World) :
  outers w !! grid = Some rows → NoDup rows →
  App.placeOnGrid grid shape rowIndex colIndex w = (Ok newGrid, w') →
  ∀ i j : nat,
    (lands shape rowIndex colIndex i j →
     readCell w' newGrid (Z.of_nat i) (Z.of_nat j) = Color (color shape))
    ∧ (¬ lands shape rowIndex colIndex i j →
       readCell w' newGrid (Z.of_nat i) (Z.of_nat j)
       = readCell w grid (Z.of_nat i) (Z.of_nat j)).
Proof.
  intros Hg Hnodup Hrun i j.
  destruct (placeOnGrid_shares_rows _ _ _ _ _ _ _ Hrun) as (_ & Hset & _).
  split.
  - intros (b & Hb & Hin & <- & <-). by apply Hset.
  - intros Hmiss. revert Hrun. unfold App.placeOnGrid, bind, spread. rewrite Hg.
    unfold allocOuter. set (g1 := fresh (dom (outers w))). set (w1 := mkWorld _ _ _ _).
    destruct (forEach _ _ w1) as [[[]|] w2] eqn:Hloop; [|done].
    unfold ret. intros [= <- <-].
    assert (outers w1 !! g1 = Some rows) as Hg1
      by (subst w1; cbn [outers]; by rewrite lookup_insert_eq).
    rewrite (placeLoop_frame _ _ _ _ _ _ _ _ Hloop Hg1 Hnodup).
    + unfold readCell, readGrid. by rewrite Hg1, Hg.
    + intros b Hb Hin [Hi Hj]. apply Hmiss. by exists b.
Qed.

(** The loop on a grid whose rows are in the store. *)
Lemma placeLoop_completes newGrid shape rowIndex colIndex rows bs w :
  rowsInStore w newGrid rows →
  ∃ w', forEach bs (App.placeBlock newGrid shape rowIndex colIndex) w = (Ok tt, w')
        ∧ rowsInStore w' newGrid rows.
Proof.
  revert w; induction bs as [|b bs IH]; intros w Hstore; cbn [forEach].
  - by exists w.
  - assert (∃ w1, App.placeBlock newGrid shape rowIndex colIndex b w = (Ok tt, w1)
                  ∧ rowsInStore w1 newGrid rows) as (w1 & Hblock & Hstore1).
    { unfold App.placeBlock, App.GRID_SIZE.
      destruct (_ && _ && _ && _) eqn:Hguard; [|by exists w].
      rewrite !andb_true_iff, !Z.leb_le, !Z.ltb_lt in Hguard.
      destruct Hstore as (Hg & Hlen & Hrows). unfold writeCell. rewrite Hg.
      destruct (lookup_lt_is_Some_2 rows (Z.to_nat (rowIndex + b.1)) ltac:(lia)) as [r Hr].
      rewrite (proj2 (index_Some rows _ r)) by (split; [lia|done]).
      destruct (Hrows r) as [cells Hcells]; [by eapply list_elem_of_lookup_2|].
      rewrite Hcells. eexists. split; [done|]. split_and!; [done|done|].
      intros r' Hr'. cbn [rowsOf]. destruct (decide (r = r')) as [<-|Hne].
      - rewrite lookup_insert_eq. by eexists.
      - rewrite lookup_insert_ne by done. by apply Hrows. }
    destruct (IH w1 Hstore1) as (w' & Hrest & Hstore').
    exists w'. by rewrite (bind_Ok _ _ _ _ _ Hblock).
Qed.

(** X3. A placement on a grid whose outer array is in the store with at
    least 8 rows, all in the store, never raises, whatever the shape and
    the anchor. *)
Theorem placeOnGrid_completes (grid : loc) (shape : Shape) (rowIndex colIndex : Z)
    (w : World) (rows : list loc) :
  rowsInStore w grid rows →
  ∃ newGrid w', App.placeOnGrid grid shape rowIndex colIndex w = (Ok newGrid, w').
Proof.
  intros (Hg & Hlen & Hrows). unfold App.placeOnGrid, bind, spread. rewrite Hg.
  unfold allocOuter. set (g1 := fresh (dom (outers w))). set (w1 := mkWorld _ _ _ _).
  destruct (placeLoop_completes g1 shape rowIndex colIndex rows (blocks shape) w1)
    as (w2 & -> & _); [|by eexists _, _].
  split_and!; [|done|done]. subst w1; cbn [outers]. by rewrite lookup_insert_eq.
Qed.

(** ** App: states of a game *)

Section GameInvariants.

Context `{L : GameLogic}.

Lemma handlePlaceShape_game_over r c w st :
  App.gameOver st = true → App.handlePlaceShape r c st w = (Ok st, w).
Proof.
  intros Hover. unfold App.handlePlaceShape. rewrite Hover.
  by destruct (App.selectedShape st).
Qed.

(** X4. Once the game is over, no step but a new game changes the store,
    the score, the streak, the board, the pieces or the status: clicks on
    cells and the game-over check do nothing, a click on a piece only
    moves the selection, and only the settings touch the high score. *)
Theorem game_over_freezes_the_game (ev : App.event) (w : World) (st : App.State) :
  App.gameOver st = true → ev ≠ App.PlayAgain →
  (App.step ev (w, st)).1 = w
  ∧ App.score (App.step ev (w, st)).2 = App.score st
  ∧ App.streak (App.step ev (w, st)).2 = App.streak st
  ∧ App.grid (App.step ev (w, st)).2 = App.grid st
  ∧ App.availableShapes (App.step ev (w, st)).2 = App.availableShapes st
  ∧ App.gameOver (App.step ev (w, st)).2 = true
  ∧ (ev ≠ App.ResetHighScore →
     App.highScore (App.step ev (w, st)).2 = App.highScore st).
Proof.
  intros Hover Hev. destruct ev as [i|r c| | |]; [| | |done|].
  - by rewrite step_SelectShape.
  - assert (App.step (App.CellClick r c) (w, st) = (w, st)) as ->; [|done].
    unfold App.step, App.commit. by rewrite handlePlaceShape_game_over.
  - rewrite step_CheckGameOver. unfold App.gameOverEffect.
    by rewrite Hover, andb_false_r.
  - rewrite step_ResetHighScore. by cbn.
Qed.

Lemma resetGame_shapes st w :
  App.availableShapes (App.commit st (App.resetGame st) w).2
  = (generateShapes 3 (rng w)).1.
Proof.
  destruct (resetGame_generates st w) as (g & shapes & w' & Hrun & ->).
  unfold App.commit. by rewrite Hrun.
Qed.

(** The pieces after any run of the handler that changes the state. *)
Lemma click_pieces r c w st :
  (∀ seed, length (generateShapes 3 seed).1 = 3%nat) →
  pieces_ok (w, st) → pieces_ok (App.step (App.CellClick r c) (w, st)).
Proof.
  intros Hgen Hok. unfold App.step, App.commit.
  destruct (App.handlePlaceShape r c st w) as [[st1|] w1] eqn:Hrun; [|done].
  destruct (handlePlaceShape_inv _ _ _ _ _ _ Hrun)
    as [[[= ->] _]|[?|(selected & shape & Hacc)]]; [done|done|].
  destruct (handlePlaceShape_accepted _ _ _ _ _ _ _ _ Hacc Hrun)
    as [?|(? & ? & ? & ? & ? & w2 & shapes & _ & _ & Hnext & [= ->])]; [done|].
  destruct Hacc as (_ & _ & Hshape & _).
  unfold pieces_ok in *; cbn [snd App.availableShapes] in *.
  apply nextShapes_inv in Hnext as [(Hne & [= ->] & _)|(_ & [= ->])].
  - rewrite (splice1_live _ _ _ Hshape) in Hne |- *.
    apply index_Some in Hshape as [_ Hlook%lookup_lt_Some].
    assert (length (take (Z.to_nat selected) (App.availableShapes st)
                    ++ drop (S (Z.to_nat selected)) (App.availableShapes st)) ≠ 0)%nat
      by (by intros ?%nil_length_inv).
    rewrite length_app, length_take, length_drop in *. lia.
  - rewrite Hgen. lia.
Qed.

(** X5. As long as [generateShapes(3)] returns 3 shapes, every state of a
    game offers at least one piece and at most 3. *)
Theorem pieces_between_one_and_three (c : World * App.State) :
  (∀ seed, length (generateShapes 3 seed).1 = 3%nat) →
  App.reachable c → pieces_ok c.
Proof.
  intros Hgen. induction 1 as [w st|ev [w st] _ IH].
  - unfold pieces_ok. rewrite resetGame_shapes, Hgen. lia.
  - destruct ev as [i|r c| | |].
    + by rewrite step_SelectShape.
    + by apply click_pieces.
    + rewrite step_CheckGameOver. unfold pieces_ok, App.gameOverEffect; cbn [snd].
      destruct (_ && _); [|done]. by destruct (checkGameOver _ _).
    + rewrite step_PlayAgain. unfold pieces_ok. rewrite resetGame_shapes, Hgen. lia.
    + by rewrite step_ResetHighScore.
Qed.





(** X8. One selection places one piece: after an accepted placement that
    completes the selection is cleared, and a further click on any cell
    changes neither the state nor the store. *)
Theorem one_placement_per_selection (w : World) (st : App.State) (r c selected : Z)
    (shape : Shape) (st' : App.State) (w' : World) (r' c' : Z) :
  accepted w st r c selected shape →
  App.handlePlaceShape r c st w = (Ok st', w') →
  App.selectedShape st' = None
  ∧ App.step (App.CellClick r' c') (w', st') = (w', st').
Proof.
  intros Hacc Hrun.
  destruct (handlePlaceShape_accepted _ _ _ _ _ _ _ _ Hacc Hrun)
    as [?|(? & ? & ? & ? & ? & ? & ? & _ & _ & _ & [= ->])]; [done|].
  split; [done|]. unfold App.step, App.commit, App.handlePlaceShape. by cbn.
Qed.

(** X9. With a streak that is a safe integer (below 2^53 in absolute
    value), the code's [newStreak += 1] on doubles is exact, and after an
    accepted placement that completes the streak is 0 or one more than
    before; so the streak badge, shown above 1, is only shown when the
    streak before the placement was at least 1. *)
Theorem streak_steps_by_one_or_resets (w : World) (st : App.State) (r c selected : Z)
    (shape : Shape) (st' : App.State) (w' : World) :
  isSafeInteger (App.streak st) →
  accepted w st r c selected shape →
  App.handlePlaceShape r c st w = (Ok st', w') →
  (App.streak st' = 0 ∨ App.streak st' = App.streak st + 1)
  ∧ numAdd (App.streak st) 1 = App.streak st + 1
  ∧ (App.showsStreak st' = true →
     1 ≤ App.streak st ∧ App.streak st' = App.streak st + 1).
Proof.
  intros Hsafe Hacc Hrun.
  assert (numAdd (App.streak st) 1 = App.streak st + 1) as Hexact.
  { unfold numAdd, roundNumber, isSafeInteger in *.
    destruct (Z.ltb_spec (Z.abs (App.streak st + 1)) (2 ^ 53)) as [|Hbig]; [done|].
    assert (App.streak st + 1 = 2 ^ 53) as -> by lia. by vm_compute. }
  destruct (handlePlaceShape_accepted _ _ _ _ _ _ _ _ Hacc Hrun)
    as [?|(? & ? & ? & clearedLines & ? & ? & ? & _ & _ & _ & [= ->])]; [done|].
  unfold App.showsStreak, App.turnScore. cbn [App.streak].
  destruct (clearedLines >? 0); cbn [App.newStreak].
  - split_and!; [by right|done|]. intros Hshown%Z.gtb_lt. lia.
  - split_and!; [by left|done|]. intros Hshown%Z.gtb_lt. lia.
Qed.

(** X10. When the game-over check ends the game, "New High Score!" is
    shown exactly when the score is above 0 and at least the high score
    stored before the check; with a score equal to that high score it is
    shown although the high score stays as it was. *)
Theorem new_high_score_line_on_ties (w : World) (st : App.State) :
  App.gameOver st = false →
  App.gameOver (App.gameOverEffect w st) = true →
  (App.showsNewHighScore (App.gameOverEffect w st) = true
   ↔ 0 < App.score st ∧ App.highScore st ≤ App.score st)
  ∧ (0 < App.score st → App.score st = App.highScore st →
     App.showsNewHighScore (App.gameOverEffect w st) = true
     ∧ App.highScore (App.gameOverEffect w st) = App.highScore st).
Proof.
  intros Hplaying. unfold App.gameOverEffect.
  destruct (_ && _); [|congruence].
  destruct (checkGameOver _ _); [|congruence]. intros _.
  unfold App.showsNewHighScore. cbn [App.gameOver App.score App.highScore andb].
  rewrite andb_true_iff, Z.geb_le, Z.gtb_lt.
  destruct (Z.gtb_spec (App.score st) (App.highScore st)); split; lia.
Qed.

(** X21. The game-over effect settles: run again on the state it has
    produced (its own updates of [gameOver] and [highScore] make it run
    again), it changes nothing. *)
Theorem gameOverEffect_settles (w : World) (st : App.State) :
  App.gameOverEffect w (App.gameOverEffect w st) = App.gameOverEffect w st.
Proof.
  unfold App.gameOverEffect at 2.
  destruct (_ && _) eqn:Hguard; [|unfold App.gameOverEffect; by rewrite Hguard].
  destruct (checkGameOver _ _) eqn:Hcheck.
  - unfold App.gameOverEffect. cbn [App.gameOver App.availableShapes negb].
    by rewrite andb_false_r, Hguard, Hcheck.
  - unfold App.gameOverEffect. by rewrite Hguard, Hcheck.
Qed.

End GameInvariants.

(** ** GameBoard: what the hover preview draws *)

Lemma getCell_neg cells j : j < 0 → getCell cells j = Undefined.
Proof. intros Hj. unfold getCell. destruct (Z.leb_spec 0 j); [lia|done]. Qed.

Lemma getRow_neg grid i : i < 0 → GameBoard.getRow grid i = [].
Proof. intros Hi. unfold GameBoard.getRow. destruct (Z.leb_spec 0 i); [lia|done]. Qed.

(** Reading after [g[r0][c0] = v]. *)
Lemma get_set (g : list (list cell)) (r0 c0 : nat) (v : cell) (i j : Z) :
  GameBoard.get (GameBoard.set g r0 c0 v) i j
  = if decide (i = Z.of_nat r0 ∧ j = Z.of_nat c0 ∧ (r0 < length g)%nat) then v
    else GameBoard.get g i j.
Proof.
  unfold GameBoard.get.
  destruct (g !! r0) as [cells|] eqn:Hrow.
  - assert (GameBoard.set g r0 c0 v = <[r0 := setCell cells c0 v]> g) as ->
      by (unfold GameBoard.set, GameBoard.Grid; by rewrite Hrow).
    pose proof (lookup_lt_Some _ _ _ Hrow) as Hlt.
    destruct (Z.lt_ge_cases i 0) as [Hi|Hi].
    { rewrite !getRow_neg by done. case_decide; [lia|done]. }
    destruct (Z.lt_ge_cases j 0) as [Hj|Hj].
    { rewrite !getCell_neg by done. case_decide; [lia|done]. }
    assert (∃ n, i = Z.of_nat n) as [n ->] by (exists (Z.to_nat i); lia).
    assert (∃ m, j = Z.of_nat m) as [m ->] by (exists (Z.to_nat j); lia).
    rewrite !getRow_nat. destruct (decide (n = r0)) as [->|Hir].
    + rewrite list_lookup_insert_eq, Hrow by done. cbn [default id].
      rewrite getCell_setCell. repeat case_decide; try done; lia.
    + rewrite list_lookup_insert_ne by done. case_decide; [lia|done].
  - assert (GameBoard.set g r0 c0 v = g) as ->
      by (unfold GameBoard.set, GameBoard.Grid; by rewrite Hrow).
    apply lookup_ge_None in Hrow. case_decide; [lia|done].
Qed.

Lemma set_length (g : list (list cell)) r0 c0 v :
  length (GameBoard.set g r0 c0 v) = length g.
Proof.
  unfold GameBoard.set, GameBoard.Grid. destruct (g !! r0); [apply length_insert|done].
Qed.

Lemma set_board8 (g : list (list cell)) r0 c0 v :
  (c0 < 8)%nat → board8 g → board8 (GameBoard.set g r0 c0 v).
Proof.
  intros Hc [Hlen Hrows]. split; [by rewrite set_length|].
  unfold GameBoard.set, GameBoard.Grid. destruct (g !! r0) as [cells|] eqn:Hrow; [|done].
  apply Forall_insert; [done|].
  pose proof (Forall_lookup_1 _ _ _ _ Hrows Hrow) as Hcells. cbn in Hcells.
  unfold setCell. destruct (Nat.ltb_spec c0 (length cells)); [|lia].
  by rewrite length_insert.
Qed.

Section PreviewMarks.

Variables (grid : list (list cell)) (shape : Shape) (hoverRow hoverCol : Z).

Local Abbreviation step := (GameBoard.previewBlock grid shape hoverRow hoverCol).
Local Abbreviation fits := (blockFits grid hoverRow hoverCol).
Local Abbreviation inGrid := (inGridOf grid hoverRow hoverCol).
Local Abbreviation target := (targetOf hoverRow hoverCol).

Lemma fits_inGrid b :
  fits b = inGrid b
           && negb (isNotNull (GameBoard.get grid (hoverRow + b.1) (hoverCol + b.2))).
Proof. done. Qed.

(** One iteration, on the preview grid. *)
Lemma previewBlock_grid flag pg b :
  (step (flag, pg) b).2
  = if inGrid b
    then GameBoard.set pg (Z.to_nat (hoverRow + b.1)) (Z.to_nat (hoverCol + b.2))
           (previewMark shape (flag && fits b))
    else pg.
Proof.
  rewrite fits_inGrid. unfold GameBoard.previewBlock, inGridOf; cbn zeta.
  destruct (_ && _ && _ && _); cbn [snd andb]; [|done].
  unfold previewMark. destruct (isNotNull _); cbn [negb]; [by rewrite andb_false_r|].
  by rewrite andb_true_r.
Qed.

Lemma preview_fold_cons flag pg b bs :
  fold_left step (b :: bs) (flag, pg)
  = fold_left step bs (flag && fits b, (step (flag, pg) b).2).
Proof.
  cbn [fold_left]. f_equal. rewrite <- (previewBlock_flag grid shape hoverRow hoverCol flag pg b).
  by destruct (step (flag, pg) b).
Qed.

Lemma preview_fold_length bs flag pg :
  length (fold_left step bs (flag, pg)).2 = length pg.
Proof.
  revert flag pg; induction bs as [|b bs IH]; intros flag pg; [done|].
  rewrite preview_fold_cons, IH, previewBlock_grid.
  destruct (inGrid b); [apply set_length|done].
Qed.

Lemma preview_fold_board8 bs flag pg :
  board8 grid → board8 pg → board8 (fold_left step bs (flag, pg)).2.
Proof.
  intros Hgrid. revert flag pg; induction bs as [|b bs IH]; intros flag pg Hpg; [done|].
  rewrite preview_fold_cons. apply IH. rewrite previewBlock_grid.
  destruct (inGrid b) eqn:Hin; [|done]. apply set_board8; [|done].
  unfold inGridOf in Hin. rewrite (board8_row0 grid Hgrid) in Hin.
  rewrite !andb_true_iff, !Z.leb_le, !Z.ltb_lt in Hin. lia.
Qed.

(** Cells no block inside the grid points at are not written. *)
Lemma preview_fold_frame bs flag pg i j :
  (∀ b, b ∈ bs → inGrid b = true → target b ≠ (i, j)) →
  GameBoard.get (fold_left step bs (flag, pg)).2 i j = GameBoard.get pg i j.
Proof.
  revert flag pg; induction bs as [|b bs IH]; intros flag pg Hmiss; [done|].
  rewrite preview_fold_cons, IH by (intros b' Hb'; apply Hmiss; by right).
  rewrite previewBlock_grid. destruct (inGrid b) eqn:Hin; [|done].
  rewrite get_set. case_decide as Hhit; [|done].
  destruct Hhit as (Hi & Hj & _). destruct (Hmiss b ltac:(by left) Hin).
  unfold inGridOf in Hin. rewrite !andb_true_iff, !Z.leb_le, !Z.ltb_lt in Hin.
  unfold targetOf. f_equal; lia.
Qed.

(** The mark of the last block that points at a cell: the preview colour
    if all blocks up to it fit, "invalid" otherwise. *)
Lemma preview_fold_mark pre b post flag pg :
  inGrid b = true → length pg = length grid →
  (∀ b', b' ∈ post → target b' ≠ target b) →
  GameBoard.get (fold_left step (pre ++ b :: post) (flag, pg)).2
    (hoverRow + b.1) (hoverCol + b.2)
  = previewMark shape (flag && forallb fits (pre ++ [b])).
Proof.
  intros Hin. revert flag pg; induction pre as [|a pre IH]; intros flag pg Hlen Hlast.
  - cbn [app]. rewrite preview_fold_cons, preview_fold_frame by auto.
    rewrite previewBlock_grid, Hin, get_set. cbn [forallb]. rewrite andb_true_r.
    case_decide as Hhit; [done|]. exfalso. apply Hhit.
    unfold inGridOf in Hin. rewrite !andb_true_iff, !Z.leb_le, !Z.ltb_lt in Hin. lia.
  - cbn [app]. rewrite preview_fold_cons, IH; [|..|done].
    + cbn [forallb]. by rewrite andb_assoc.
    + rewrite previewBlock_grid. destruct (inGrid a); [by rewrite set_length|done].
Qed.

End PreviewMarks.

(** The last element of a list with a decidable property. *)
Lemma last_such {A} (P : A → Prop) `{!∀ x, Decision (P x)} (l : list A) :
  Exists P l →
  ∃ pre y post, l = pre ++ y :: post ∧ P y ∧ ∀ z, z ∈ post → ¬ P z.
Proof.
  induction l as [|a l IH]; intros Hex; [by apply Exists_nil in Hex|].
  destruct (decide (Exists P l)) as [Hl|Hno].
  - destruct (IH Hl) as (pre & y & post & -> & HPy & Hpost).
    by exists (a :: pre), y, post.
  - apply Exists_cons in Hex as [HPa|Hl]; [|done].
    exists [], a, l. split_and!; [done|done|].
    intros z Hz HPz. apply Hno, Exists_exists. by exists z.
Qed.

Section PreviewFacts2.

Variables (grid : list (list cell)) (shape : Shape) (hoverRow hoverCol : Z).

Local Abbreviation fits := (blockFits grid hoverRow hoverCol).
Local Abbreviation inGrid := (inGridOf grid hoverRow hoverCol).
Local Abbreviation target := (targetOf hoverRow hoverCol).
Local Abbreviation previewGrid := (GameBoard.preview grid shape hoverRow hoverCol).2.

(** A cell of the preview grid: the board cell, or the mark of the last
    block inside the grid that points at it. *)
Lemma preview_cell i j :
  ((∀ b, b ∈ blocks shape → inGrid b = true → target b ≠ (i, j))
   ∧ GameBoard.get previewGrid i j = GameBoard.get grid i j)
  ∨ ∃ pre b post,
      blocks shape = pre ++ b :: post
      ∧ inGrid b = true ∧ target b = (i, j)
      ∧ GameBoard.get previewGrid i j = previewMark shape (forallb fits (pre ++ [b])).
Proof.
  destruct (decide (Exists (λ b, inGrid b = true ∧ target b = (i, j)) (blocks shape)))
    as [Hex|Hno].
  - right. apply last_such in Hex as (pre & b & post & Hsplit & [Hin Htarget] & Hlast);
      [|apply _].
    exists pre, b, post. split_and!; [done|done|done|].
    injection Htarget as <- <-. unfold GameBoard.preview. rewrite Hsplit.
    rewrite preview_fold_mark; [done|done|done|].
    intros b' Hb' Hsame. apply (Hlast b' Hb'). split; [|done].
    unfold inGridOf, targetOf in *. injection Hsame as -> ->. done.
  - left. assert (∀ b, b ∈ blocks shape → inGrid b = true → target b ≠ (i, j)) as Hmiss.
    { intros b Hb Hin Htarget. apply Hno, Exists_exists. by exists b. }
    split; [done|]. by apply preview_fold_frame.
Qed.

(** X11. The preview grid has the rows of the board, is an 8x8 board when
    the board is, and holds the board's own cell wherever no block of the
    hovered shape points. *)
Theorem preview_keeps_other_cells :
  length previewGrid = length grid
  ∧ (board8 grid → board8 previewGrid)
  ∧ (∀ i j, (∀ b, b ∈ blocks shape → target b ≠ (i, j)) →
            GameBoard.get previewGrid i j = GameBoard.get grid i j).
Proof.
  split_and!.
  - apply preview_fold_length.
  - intros Hb. by apply preview_fold_board8.
  - intros i j Hmiss. apply preview_fold_frame. auto.
Qed.

(** X12. The mark a block leaves in the preview, when it is inside the
    grid and no later block points at the same cell: the preview colour if
    this block and all blocks before it in the shape fit, "invalid" if one
    of them does not. Blocks listed after it do not matter. *)
Theorem preview_mark_depends_on_earlier_blocks (pre : list (Z * Z)) (b : Z * Z)
    (post : list (Z * Z)) :
  blocks shape = pre ++ b :: post →
  inGrid b = true →
  (∀ b', b' ∈ post → target b' ≠ target b) →
  GameBoard.get previewGrid (hoverRow + b.1) (hoverCol + b.2)
  = if forallb fits (pre ++ [b]) then Color (color shape +:+ "-preview")
    else Color "invalid".
Proof.
  intros Hsplit Hin Hlast. unfold GameBoard.preview. rewrite Hsplit.
  by rewrite preview_fold_mark.
Qed.

(** X13. When the preview says the shape can be placed, every cell a
    block points at shows the colour of the shape as a preview. *)
Theorem preview_of_a_valid_placement (b : Z * Z) :
  GameBoard.canPlace grid shape hoverRow hoverCol = true →
  b ∈ blocks shape →
  GameBoard.get previewGrid (hoverRow + b.1) (hoverCol + b.2)
  = Color (color shape +:+ "-preview").
Proof.
  intros Hcan Hb.
  assert (forallb fits (blocks shape) = true) as Hall.
  { unfold GameBoard.canPlace, GameBoard.preview in Hcan.
    by rewrite preview_flag in Hcan. }
  assert (inGrid b = true) as Hin.
  { rewrite forallb_forall in Hall. specialize (Hall b ltac:(by apply list_elem_of_In)).
    rewrite fits_inGrid in Hall. by apply andb_true_iff in Hall as [? _]. }
  destruct (preview_cell (hoverRow + b.1) (hoverCol + b.2))
    as [[Hmiss _]|(pre & b' & post & Hsplit & _ & _ & ->)].
  - by destruct (Hmiss b Hb Hin).
  - rewrite Hsplit in Hall.
    replace (pre ++ b' :: post) with ((pre ++ [b']) ++ post) in Hall
      by (by rewrite <- app_assoc).
    rewrite forallb_app in Hall. apply andb_true_iff in Hall as [-> _]. done.
Qed.

(** X14. A cell inside the grid that is occupied on the board and that a
    block of the hovered shape points at is marked "invalid". *)
Theorem preview_marks_occupied_targets_invalid (b : Z * Z) :
  b ∈ blocks shape → inGrid b = true →
  GameBoard.get grid (hoverRow + b.1) (hoverCol + b.2) ≠ Null →
  GameBoard.get previewGrid (hoverRow + b.1) (hoverCol + b.2) = Color "invalid".
Proof.
  intros Hb Hin Hocc.
  destruct (preview_cell (hoverRow + b.1) (hoverCol + b.2))
    as [[Hmiss _]|(pre & b' & post & Hsplit & Hin' & Htarget & ->)].
  - by destruct (Hmiss b Hb Hin).
  - injection Htarget as Hi Hj.
    assert (fits b' = false) as Hfits.
    { rewrite fits_inGrid, Hin', Hi, Hj. apply isNotNull_true in Hocc. by rewrite Hocc. }
    rewrite forallb_app. cbn [forallb]. rewrite Hfits, andb_false_r. done.
Qed.

(** X15. What a cell displays once the preview effect has run: the board
    cell when no cell is hovered or no shape is selected (also with a hover
    position left over from an earlier selection), and the cell of the
    preview grid otherwise. *)
Theorem displayColor_settled (selectedShape : option Shape) (hoverPosition : option (Z * Z))
    (i j : nat) :
  GameBoard.displayColor hoverPosition
    (GameBoard.previewGridOf hoverPosition selectedShape grid) grid i j
  = match hoverPosition, selectedShape with
    | Some (r, c), Some s =>
        GameBoard.get (GameBoard.preview grid s r c).2 (Z.of_nat i) (Z.of_nat j)
    | _, _ => GameBoard.get grid (Z.of_nat i) (Z.of_nat j)
    end.
Proof.
  unfold GameBoard.displayColor, GameBoard.previewGridOf.
  destruct hoverPosition as [[r c]|]; [|done].
  destruct selectedShape as [s|].
  - destruct (GameBoard.isDefined _) eqn:Hdef; [done|].
    destruct (GameBoard.get (GameBoard.preview grid s r c).2 _ _) eqn:Hcell; try done.
    symmetry. rewrite <- Hcell. clear Hdef.
    assert (∀ g sh r0 c0 i0 j0,
              GameBoard.get (GameBoard.preview g sh r0 c0).2 i0 j0 = Undefined →
              GameBoard.get (GameBoard.preview g sh r0 c0).2 i0 j0 = GameBoard.get g i0 j0)
      as Hundef; [|by apply Hundef].
    clear. intros g sh r0 c0 i0 j0 Hcell.
    unfold GameBoard.preview in *.
    destruct (decide (Exists (λ b, inGridOf g r0 c0 b = true ∧ targetOf r0 c0 b = (i0, j0))
                        (blocks sh))) as [Hex|Hno].
    + apply last_such in Hex as (pre & b & post & Hsplit & [Hin Htarget] & Hlast);
        [|apply _].
      injection Htarget as <- <-. rewrite Hsplit in Hcell.
      rewrite preview_fold_mark in Hcell; [|done|done|].
      * unfold previewMark in Hcell. by destruct (_ && _).
      * intros b' Hb' Hsame. apply (Hlast b' Hb'). split; [|done].
        unfold inGridOf, targetOf in *. injection Hsame as -> ->. done.
    + apply preview_fold_frame. intros b Hb Hin Htarget.
      apply Hno, Exists_exists. by exists b.
  - assert (GameBoard.get [] (Z.of_nat i) (Z.of_nat j) = Undefined) as ->; [|done].
    unfold GameBoard.get. by rewrite getRow_nat, getCell_nat.
Qed.

End PreviewFacts2.

(** ** GameBoard: how many cells flash *)

Section FlashCount.

Import GameBoard.

Variables (grid : list (list cell)) (gridSize : nat).

Lemma someCell_snoc cells x r c :
  someCell (cells ++ [x]) r c
  = someCell cells r c || ((row x =? r)%nat && (col x =? c)%nat).
Proof. unfold someCell. rewrite existsb_app. cbn. by rewrite orb_false_r. Qed.

Lemma filter_complement {A} (f : A → bool) (l : list A) :
  (length (List.filter f l) + length (List.filter (λ x, negb (f x)) l) = length l)%nat.
Proof. induction l as [|x l IH]; cbn; [done|]. destruct (f x); cbn; lia. Qed.

(** The inner loop of the column scan adds the cells that are not there. *)
Lemma pushCol_length rs c cells :
  NoDup rs →
  length (fold_left (λ acc r, if someCell acc r c then acc else acc ++ [mkFlash r c]) rs cells)
  = (length cells + length (List.filter (λ r, negb (someCell cells r c)) rs))%nat.
Proof.
  revert cells; induction rs as [|r rs IH]; intros cells Hnodup; cbn [fold_left List.filter].
  - cbn. lia.
  - apply NoDup_cons in Hnodup as [Hr Hnodup]. rewrite IH by done.
    destruct (someCell cells r c) eqn:Hsome; cbn [negb]; [done|].
    rewrite length_app. cbn [length].
    rewrite (List.filter_ext_in (λ r0, negb (someCell (cells ++ [mkFlash r c]) r0 c))
               (λ r0, negb (someCell cells r0 c))); [lia|].
    intros r' Hr'%list_elem_of_In. rewrite someCell_snoc. cbn [row col].
    destruct (Nat.eqb_spec r r') as [->|_]; [done|]. by rewrite orb_false_r.
Qed.

Lemma scanRows_length rs cells :
  length (fold_left (λ acc r, if isRowFull grid r then pushRow gridSize r acc else acc) rs cells)
  = (length cells + gridSize * length (List.filter (isRowFull grid) rs))%nat.
Proof.
  revert cells; induction rs as [|r rs IH]; intros cells; cbn [fold_left List.filter].
  - cbn. lia.
  - rewrite IH. destruct (isRowFull grid r); [|done].
    rewrite pushRow_eq, length_app, length_map, length_seq. cbn [length]. lia.
Qed.

(** The column scan over columns in whose cells exactly the rows [r] with
    [f r] are present. *)
Lemma scanCols_length (f : nat → bool) cs cells :
  NoDup cs →
  (∀ r c, (r < gridSize)%nat → c ∈ cs → someCell cells r c = f r) →
  length (fold_left (λ acc c, if isColFull grid gridSize c then pushCol gridSize c acc else acc)
            cs cells)
  = (length cells
     + length (List.filter (λ r, negb (f r)) (seq 0 gridSize))
       * length (List.filter (isColFull grid gridSize) cs))%nat.
Proof.
  revert cells; induction cs as [|c cs IH]; intros cells Hnodup Hcells;
    cbn [fold_left List.filter].
  - cbn. lia.
  - apply NoDup_cons in Hnodup as [Hc Hnodup].
    destruct (isColFull grid gridSize c) eqn:Hfull.
    + rewrite IH; [|done|].
      * unfold pushCol. rewrite pushCol_length by apply NoDup_seq.
        rewrite (List.filter_ext_in (λ r, negb (someCell cells r c)) (λ r, negb (f r))).
        { cbn [length]. lia. }
        intros r Hr%in_seq. rewrite Hcells; [done|lia|by left].
      * intros r c' Hr Hc'. rewrite <- (Hcells r c' Hr) by (by right).
        apply eq_true_iff_eq. rewrite !someCell_elem. unfold pushCol.
        rewrite pushCol_elem. cbn [row col]. split; [|by left].
        intros [?|[<- _]]; [done|]. by destruct Hc.
    + apply IH; [done|]. intros r c' Hr Hc'. apply Hcells; [done|by right].
Qed.

End FlashCount.

(** X16. The number of flashing cells: with [R] full rows and [C] full
    columns among the [n] lines of each kind of an [n]-row grid, [n * R]
    cells come from the rows and [(n - R) * C] more from the columns, the
    crossings being counted once. *)
Theorem flashingCells_count (grid : list (list cell)) :
  let n := length grid in
  let R := length (List.filter (GameBoard.isRowFull grid) (seq 0 n)) in
  let C := length (List.filter (GameBoard.isColFull grid n) (seq 0 n)) in
  length (GameBoard.flashingCells grid) = (n * R + (n - R) * C)%nat.
Proof.
  intros n R C. unfold GameBoard.flashingCells, GameBoard.scanCols, GameBoard.scanRows.
  fold n. rewrite (scanCols_length grid n (GameBoard.isRowFull grid)).
  - rewrite scanRows_length. fold R C. cbn [length].
    pose proof (filter_complement (GameBoard.isRowFull grid) (seq 0 n)) as Hsum.
    rewrite length_seq in Hsum. fold R in Hsum. nia.
  - apply NoDup_seq.
  - intros r c Hr Hc%elem_of_seq. apply eq_true_iff_eq.
    rewrite someCell_elem, scanRows_elem, elem_of_seq. cbn [GameBoard.row GameBoard.col].
    split.
    + intros [H%elem_of_nil|(_ & _ & Hfull)]; done.
    + intros Hfull. right. split_and!; [lia|lia|lia|done].
Qed.

(** ** GameBoard: the colour class of a cell *)

Lemma prefix_dropChars pat s :
  String.prefix pat s = true →
  (String.length (GameBoard.dropChars (String.length pat) s) + String.length pat
   = String.length s)%nat.
Proof.
  revert s; induction pat as [|b pat IH]; intros [|c s]; cbn; try done; try lia.
  destruct (Ascii.ascii_dec b c); [|done]. intros Hpre%IH. lia.
Qed.

(** Taking "-preview" out of a string that ends with it makes it shorter. *)
Lemma removeFirst_shorter s :
  GameBoard.endsWith s "-preview" = true →
  (String.length (GameBoard.removeFirst "-preview" s) < String.length s)%nat.
Proof.
  induction s as [|a rest IH]; [by cbn|].
  destruct (String.prefix "-preview" (String a rest)) eqn:Hpre.
  - intros _. cbn [GameBoard.removeFirst]. rewrite Hpre.
    apply prefix_dropChars in Hpre. cbn [String.length] in *. lia.
  - cbn [GameBoard.endsWith GameBoard.removeFirst]. rewrite Hpre.
    destruct (String.eqb (String a rest) "-preview") eqn:Heq.
    + apply String.eqb_eq in Heq. rewrite Heq in Hpre. discriminate Hpre.
    + cbn [orb]. intros Hrest. specialize (IH Hrest). cbn [String.length]. lia.
Qed.

(** Any fuel from the length of the string on gives the same result: the
    recursion never runs out. *)
Lemma blockColorFuel_enough n m isFlashing color :
  (String.length color ≤ n)%nat → (String.length color ≤ m)%nat →
  GameBoard.blockColorFuel n isFlashing color = GameBoard.blockColorFuel m isFlashing color.
Proof.
  revert m color; induction n as [|n IH]; intros m color Hn Hm.
  - destruct color; [|cbn in Hn; lia]. by destruct m.
  - destruct m as [|m].
    + destruct color; [done|cbn in Hm; lia].
    + cbn [GameBoard.blockColorFuel].
      destruct (String.eqb color ""); [done|].
      destruct (String.eqb color "invalid"); [done|].
      destruct (GameBoard.endsWith color "-preview") eqn:Hends; [|done].
      apply removeFirst_shorter in Hends. f_equal. apply IH; lia.
Qed.

(** [getBlockColor] on strings, as the source has it. *)
Lemma blockColorOf_unfold isFlashing color :
  GameBoard.blockColorOf isFlashing color
  = if String.eqb color "" then "bg-gray-900"
    else if String.eqb color "invalid" then "bg-red-500 bg-opacity-40"
    else if GameBoard.endsWith color "-preview"
         then GameBoard.blockColorOf isFlashing
                (GameBoard.removeFirst "-preview" color) +:+ " opacity-40"
         else if isFlashing then GameBoard.baseColorOf color +:+ " animate-pulse"
              else GameBoard.baseColorOf color.
Proof.
  unfold GameBoard.blockColorOf.
  destruct (GameBoard.endsWith color "-preview") eqn:Hends.
  - pose proof (removeFirst_shorter color Hends) as Hshort.
    destruct (String.length color) as [|n] eqn:Hlen; [lia|].
    cbn [GameBoard.blockColorFuel]. rewrite Hends.
    by rewrite (blockColorFuel_enough n
                  (String.length (GameBoard.removeFirst "-preview" color))) by lia.
  - destruct (String.length color); cbn [GameBoard.blockColorFuel]; by rewrite Hends.
Qed.

Lemma append_cons a s t : String a s +:+ t = String a (s +:+ t).
Proof. reflexivity. Qed.

Lemma length_append s t :
  String.length (s +:+ t) = (String.length s + String.length t)%nat.
Proof.
  induction s as [|a s IH]; [done|]. rewrite append_cons. cbn [String.length]. by rewrite IH.
Qed.

Lemma endsWith_append s suffix : GameBoard.endsWith (s +:+ suffix) suffix = true.
Proof.
  induction s as [|a s IH].
  - change ("" +:+ suffix) with suffix.
    destruct suffix; cbn; [done|]. by rewrite Ascii.eqb_refl, String.eqb_refl.
  - rewrite append_cons. cbn [GameBoard.endsWith]. by rewrite IH, orb_true_r.
Qed.

(** "-preview" starts with the one hyphen it has, so it cannot begin
    inside a string and run over into a "-preview" appended to it. *)
Lemma prefix_preview_append a s :
  String.prefix "-preview" (String a s +:+ "-preview")
  = String.prefix "-preview" (String a s).
Proof.
  rewrite append_cons. cbn [String.prefix].
  destruct (Ascii.ascii_dec _ a); [|done].
  do 7 (destruct s as [|? s]; [done|];
        rewrite append_cons; cbn [String.prefix];
        destruct (Ascii.ascii_dec _ _); [|done]).
  by destruct s.
Qed.

Lemma removeFirst_append s :
  GameBoard.includes s "-preview" = false →
  GameBoard.removeFirst "-preview" (s +:+ "-preview") = s.
Proof.
  induction s as [|a s IH]; [done|].
  cbn [GameBoard.includes]. intros [Hpre Hrest]%orb_false_iff.
  pose proof (prefix_preview_append a s) as Happ. rewrite Hpre in Happ.
  rewrite append_cons in *. cbn [GameBoard.removeFirst]. rewrite Happ.
  by rewrite IH.
Qed.

(** X17. The preview mark of a colour is drawn as the colour itself, at
    40% opacity: for a colour string that does not contain "-preview",
    [getBlockColor] of the colour followed by "-preview" is [getBlockColor]
    of the colour followed by " opacity-40", flashing or not. *)
Theorem getBlockColor_of_preview_mark (flashingCells : list GameBoard.FlashCell)
    (c : string) (rowIndex colIndex : nat) :
  GameBoard.includes c "-preview" = false →
  GameBoard.getBlockColor flashingCells (Color (c +:+ "-preview")) rowIndex colIndex
  = GameBoard.getBlockColor flashingCells (Color c) rowIndex colIndex +:+ " opacity-40".
Proof.
  intros Hplain. unfold GameBoard.getBlockColor.
  rewrite (blockColorOf_unfold _ (c +:+ "-preview")).
  assert (String.eqb (c +:+ "-preview") "" = false) as -> by (by destruct c).
  assert (String.eqb (c +:+ "-preview") "invalid" = false) as ->.
  { apply String.eqb_neq. intros Heq. apply (f_equal String.length) in Heq.
    rewrite length_append in Heq. cbn in Heq. lia. }
  by rewrite endsWith_append, removeFirst_append.
Qed.

(** ** Cookies *)

Lemma pretty_N_char_digit d :
  (d < 10)%N →
  Ascii.is_nat (pretty_N_char d) = Some (N.to_nat d)
  ∧ Ascii.is_space (pretty_N_char d) = false
  ∧ pretty_N_char d ≠ "-"%char ∧ pretty_N_char d ≠ "+"%char.
Proof.
  intros Hd.
  assert (d = 0 ∨ d = 1 ∨ d = 2 ∨ d = 3 ∨ d = 4 ∨ d = 5 ∨ d = 6 ∨ d = 7 ∨ d = 8 ∨ d = 9)%N
    as Hcases by lia.
  repeat destruct Hcases as [->|Hcases]; try subst d; by cbn.
Qed.

(** Reading the digits that [pretty_N_go] puts before [s]. *)
Lemma digitsValue_pretty_N_go x s :
  Persistence.digitsValue 0 (pretty_N_go x s) = Persistence.digitsValue x s.
Proof.
  revert s. induction (N.lt_wf_0 x) as [x _ IH]; intros s.
  assert (x = 0 ∨ 0 < x)%N as [->|Hpos] by lia; [by rewrite pretty_N_go_0|].
  rewrite pretty_N_go_step by done. rewrite IH by (by apply N.div_lt).
  cbn [Persistence.digitsValue].
  destruct (pretty_N_char_digit (x `mod` 10)%N) as (-> & _); [by apply N.mod_lt|].
  f_equal. rewrite N2Nat.id, N.mul_comm. symmetry. by apply N.div_mod.
Qed.

Lemma pretty_N_go_head x s :
  (0 < x)%N → ∃ d rest, (d < 10)%N ∧ pretty_N_go x s = String (pretty_N_char d) rest.
Proof.
  revert s. induction (N.lt_wf_0 x) as [x _ IH]; intros s Hpos.
  rewrite pretty_N_go_step by done.
  destruct (N.eq_0_gt_0_cases (x `div` 10)%N) as [->|Hdiv].
  - rewrite pretty_N_go_0. exists (x `mod` 10)%N, s. split; [by apply N.mod_lt|done].
  - apply IH; [by apply N.div_lt|done].
Qed.

(** The decimal form of a positive integer is read back by [parseInt]. *)
Lemma parseInt10_toString_pos (p : positive) :
  Persistence.toString (Z.pos p) ≠ ""
  ∧ Persistence.parseInt10 (Persistence.toString (Z.pos p)) = Some (Z.pos p).
Proof.
  unfold Persistence.toString, pretty, pretty_Z, pretty, pretty_positive, pretty, pretty_N.
  rewrite decide_False by done.
  destruct (pretty_N_go_head (N.pos p) "") as (d & rest & Hd & Hhead); [lia|].
  destruct (pretty_N_char_digit d Hd) as (Hnat & Hspace & Hminus & Hplus).
  split; [by rewrite Hhead|].
  pose proof (digitsValue_pretty_N_go (N.pos p) "") as Hvalue. rewrite Hhead in Hvalue |- *.
  unfold Persistence.parseInt10. cbn [Persistence.skipSpace]. rewrite Hspace.
  assert (Persistence.startsWithDigit (String (pretty_N_char d) rest) = true) as Hdigit
    by (cbn; by rewrite Hnat).
  destruct (pretty_N_char d) as [[] [] [] [] [] [] [] []] eqn:Hchar;
    try done; by rewrite Hdigit, Hvalue.
Qed.

(** X18. A high score above 0 (and below 2^53) that the save effect has
    written is what the next mount loads from the cookie, whatever the jar
    held before and whatever the high score was at mount. *)
Theorem saved_high_score_is_loaded (jar : gmap string string) (highScore atMount : Z) :
  0 < highScore < 2 ^ 53 →
  Persistence.loadHighScore (Persistence.saveHighScore highScore jar) atMount
  = Some highScore.
Proof.
  intros [Hpos _]. destruct highScore as [|p|p]; [lia| |lia].
  destruct (parseInt10_toString_pos p) as [Hne Hparse].
  unfold Persistence.loadHighScore, Persistence.saveHighScore. cbn [Z.gtb Z.compare].
  rewrite lookup_insert_eq. cbn [Persistence.truthy default].
  apply String.eqb_neq in Hne. by rewrite Hne.
Qed.

(** X19. The cookie follows the high score: if a high score above 0 is in
    the jar before a step, then after the step and the save effect the
    high score of the new state, when above 0, is in the jar; and after
    [clearHighScore] the jar has no high score. *)
Theorem cookie_follows_high_score `{L : GameLogic} (ev : App.event)
    (jar : gmap string string) (w : World) (st : App.State) :
  persisted jar st →
  persisted (Persistence.stepWithCookies ev (jar, (w, st))).1
            (Persistence.stepWithCookies ev (jar, (w, st))).2.2
  ∧ (ev = App.ResetHighScore →
     (Persistence.stepWithCookies ev (jar, (w, st))).1 !! Persistence.highScoreKey = None).
Proof.
  intros Hjar. unfold Persistence.stepWithCookies. cbn [fst snd].
  set (st' := (App.step ev (w, st)).2).
  unfold Persistence.saveIfChanged, Persistence.saveHighScore, persisted.
  split.
  - intros Hpos. case_decide as Hsame.
    + destruct ev; try (rewrite <- Hsame; by apply Hjar; rewrite Hsame).
      subst st'. rewrite step_ResetHighScore in Hpos. cbn in Hpos. lia.
    + destruct (Z.gtb_spec (App.highScore st') 0); [|lia]. by rewrite lookup_insert_eq.
  - intros ->. subst st'. rewrite step_ResetHighScore. cbn [snd App.clearHighScore App.highScore].
    unfold Persistence.removeHighScore.
    case_decide; [|cbn [Z.gtb Z.compare]]; by rewrite lookup_delete_eq.
Qed.

(** X20. The instructions are shown at the first visit only: a mount
    with no (or an empty) visited cookie sets it, a mount after that finds
    it and leaves the jar alone, and the high-score cookie is never
    touched by this. *)
Theorem instructions_only_at_first_visit (jar : gmap string string) :
  Persistence.firstTimeUser (Persistence.markVisited jar) = false
  ∧ Persistence.markVisited (Persistence.markVisited jar) = Persistence.markVisited jar
  ∧ (Persistence.firstTimeUser jar = true →
     Persistence.markVisited jar !! Persistence.visitedKey = Some "true")
  ∧ Persistence.markVisited jar !! Persistence.highScoreKey
    = jar !! Persistence.highScoreKey.
Proof.
  assert (Persistence.firstTimeUser (Persistence.markVisited jar) = false) as Hseen.
  { unfold Persistence.markVisited. destruct (Persistence.firstTimeUser jar) eqn:Hfirst; [|done].
    unfold Persistence.firstTimeUser. by rewrite lookup_insert_eq. }
  split_and!; [done| | |].
  - unfold Persistence.markVisited at 1. by rewrite Hseen.
  - intros Hfirst. unfold Persistence.markVisited. rewrite Hfirst. by rewrite lookup_insert_eq.
  - unfold Persistence.markVisited. destruct (Persistence.firstTimeUser jar); [|done].
    by rewrite lookup_insert_ne.
Qed.

(** ** The further statements on concrete games *)

Lemma placeOnGrid_changes_only_targets_witness :
  readCell (App.placeOnGrid (App.grid game0.2) (mkShape [(0, 0)] "red") 0 0 game0.1).2
    1%nat (Z.of_nat 0) (Z.of_nat 0) = Color "red"
  ∧ readCell (App.placeOnGrid (App.grid game0.2) (mkShape [(0, 0)] "red") 0 0 game0.1).2
      1%nat (Z.of_nat 0) (Z.of_nat 1)
    = readCell game0.1 (App.grid game0.2) (Z.of_nat 0) (Z.of_nat 1).
Proof.
  assert (outers game0.1 !! App.grid game0.2 = Some (seq 0 8)) as Hg
    by (vm_compute; reflexivity).
  assert (App.placeOnGrid (App.grid game0.2) (mkShape [(0, 0)] "red") 0 0 game0.1
          = (Ok 1%nat,
             (App.placeOnGrid (App.grid game0.2) (mkShape [(0, 0)] "red") 0 0 game0.1).2))
    as Hrun by (vm_compute; reflexivity).
  split.
  - apply (placeOnGrid_changes_only_targets _ _ _ _ _ _ _ _ Hg (NoDup_seq 0 8) Hrun 0%nat 0%nat).
    exists (0, 0). split_and!; [by left|unfold inBounds; cbn; lia|reflexivity|reflexivity].
  - apply (placeOnGrid_changes_only_targets _ _ _ _ _ _ _ _ Hg (NoDup_seq 0 8) Hrun 0%nat 1%nat).
    intros (b & Hb & _ & _ & Hcol). cbn [blocks] in Hb.
    apply elem_of_cons in Hb as [->|Hb]; [discriminate Hcol|by apply elem_of_nil in Hb].
Defined.

Lemma placeOnGrid_completes_witness :
  ∃ newGrid w',
    App.placeOnGrid (App.grid game0.2) (mkShape [(0, 9); (-3, 0)] "red") 7 7 game0.1
    = (Ok newGrid, w').
Proof.
  apply (placeOnGrid_completes _ _ _ _ _ (seq 0 8)). split_and!.
  - vm_compute. reflexivity.
  - cbn. lia.
  - intros r Hr%elem_of_seq.
    do 8 (destruct r as [|r]; [vm_compute; by eexists|]). lia.
Defined.

Lemma game_over_freezes_the_game_witness :
  App.score (App.step (H := SpecModel.logic) (App.CellClick 0 1)
               (stuckWorld.1, App.gameOverEffect (H := SpecModel.logic) stuckWorld.1 stuck)).2
  = 50.
Proof.
  destruct (game_over_freezes_the_game (L := SpecModel.logic) (App.CellClick 0 1)
              stuckWorld.1 (App.gameOverEffect (H := SpecModel.logic) stuckWorld.1 stuck))
    as (_ & Hscore & _).
  - vm_compute. reflexivity.
  - discriminate.
  - rewrite Hscore. vm_compute. reflexivity.
Defined.


Lemma pieces_between_one_and_three_witness :
  pieces_ok (App.run (H := SpecModel.logic) [App.SelectShape 0; App.CellClick 0 0] game0).
Proof.
  apply (pieces_between_one_and_three (L := SpecModel.logic)).
  - intros seed. apply generateBatch_length.
  - apply (App.reach_step (H := SpecModel.logic) (App.CellClick 0 0)).
    apply (App.reach_step (H := SpecModel.logic) (App.SelectShape 0)).
    exact (App.reach_mount (H := SpecModel.logic) world0 unmounted).
Defined.



Lemma one_placement_per_selection_witness :
  let c := App.step (H := SpecModel.logic) (App.CellClick 0 0) (game0.1, game0_selected) in
  App.selectedShape c.2 = None
  ∧ App.step (H := SpecModel.logic) (App.CellClick 3 3) (c.1, c.2) = (c.1, c.2).
Proof.
  intros c.
  apply (one_placement_per_selection (L := SpecModel.logic) game0.1 game0_selected 0 0 0
           (mkShape [(0, 0); (0, 1); (0, 2); (0, 3); (0, 4)] "orange")).
  - split_and!; vm_compute; reflexivity.
  - vm_compute. reflexivity.
Defined.

Lemma streak_steps_by_one_or_resets_witness :
  let c := App.step (H := SpecModel.logic) (App.CellClick 0 0) (game0.1, game0_selected) in
  isSafeInteger (App.streak game0_selected)
  ∧ (App.streak c.2 = 0 ∨ App.streak c.2 = App.streak game0_selected + 1)
  ∧ (App.showsStreak c.2 = true →
     1 ≤ App.streak game0_selected ∧ App.streak c.2 = App.streak game0_selected + 1).
Proof.
  intros c.
  assert (isSafeInteger (App.streak game0_selected)) as Hsafe
    by (unfold isSafeInteger; vm_compute; split; reflexivity).
  destruct (streak_steps_by_one_or_resets (L := SpecModel.logic) game0.1 game0_selected 0 0 0
              (mkShape [(0, 0); (0, 1); (0, 2); (0, 3); (0, 4)] "orange") c.2 c.1 Hsafe)
    as (Hstep & _ & Hbadge).
  - split_and!; vm_compute; reflexivity.
  - vm_compute. reflexivity.
  - split_and!; [exact Hsafe|exact Hstep|exact Hbadge].
Defined.

Lemma new_high_score_line_on_ties_witness :
  App.showsNewHighScore (App.gameOverEffect (H := SpecModel.logic) stuckWorld.1 stuckTie) = true
  ∧ App.highScore (App.gameOverEffect (H := SpecModel.logic) stuckWorld.1 stuckTie)
    = App.highScore stuckTie.
Proof.
  destruct (new_high_score_line_on_ties (L := SpecModel.logic) stuckWorld.1 stuckTie)
    as [_ Htie].
  - reflexivity.
  - vm_compute. reflexivity.
  - apply Htie; [cbn; lia|reflexivity].
Defined.

Lemma preview_keeps_other_cells_witness :
  board8 (GameBoard.preview emptyBoard domino 0 7).2
  ∧ GameBoard.get (GameBoard.preview emptyBoard domino 0 7).2 3 3
    = GameBoard.get emptyBoard 3 3.
Proof.
  destruct (preview_keeps_other_cells emptyBoard domino 0 7) as (_ & Hboard & Hframe).
  split.
  - apply Hboard. split; [reflexivity|repeat constructor].
  - apply Hframe. intros b Hb. unfold domino in Hb. cbn [blocks] in Hb.
    apply elem_of_cons in Hb as [->|Hb]; [discriminate|].
    apply elem_of_cons in Hb as [->|Hb]; [discriminate|].
    by apply elem_of_nil in Hb.
Defined.

(** A domino hanging over the right edge: the placement is not valid, yet
    its first block is previewed in the colour of the shape. *)
Lemma preview_mark_depends_on_earlier_blocks_witness :
  GameBoard.canPlace emptyBoard domino 0 7 = false
  ∧ GameBoard.get (GameBoard.preview emptyBoard domino 0 7).2 (0 + 0) (7 + 0)
    = Color "red-preview".
Proof.
  split; [reflexivity|].
  apply (preview_mark_depends_on_earlier_blocks emptyBoard domino 0 7 [] (0, 0) [(0, 1)]).
  - reflexivity.
  - reflexivity.
  - intros b' Hb'. apply elem_of_cons in Hb' as [->|Hb']; [discriminate|].
    by apply elem_of_nil in Hb'.
Defined.

Lemma preview_of_a_valid_placement_witness :
  GameBoard.get (GameBoard.preview emptyBoard domino 2 3).2 (2 + 0) (3 + 1)
  = Color "red-preview".
Proof.
  apply (preview_of_a_valid_placement emptyBoard domino 2 3 (0, 1)).
  - reflexivity.
  - unfold domino. cbn [blocks]. right. by left.
Defined.

Lemma preview_marks_occupied_targets_invalid_witness :
  GameBoard.get (GameBoard.preview crossBoard domino 0 0).2 (0 + 0) (0 + 1)
  = Color "invalid".
Proof.
  apply (preview_marks_occupied_targets_invalid crossBoard domino 0 0 (0, 1)).
  - unfold domino. cbn [blocks]. right. by left.
  - reflexivity.
  - discriminate.
Defined.

Lemma getBlockColor_of_preview_mark_witness :
  GameBoard.getBlockColor [GameBoard.mkFlash 0 0] (Color ("red" +:+ "-preview")) 0 0
  = GameBoard.getBlockColor [GameBoard.mkFlash 0 0] (Color "red") 0 0 +:+ " opacity-40".
Proof.
  apply (getBlockColor_of_preview_mark [GameBoard.mkFlash 0 0] "red" 0 0). reflexivity.
Defined.

Lemma saved_high_score_is_loaded_witness :
  Persistence.loadHighScore (Persistence.saveHighScore 50 ∅) 0 = Some 50.
Proof. apply (saved_high_score_is_loaded ∅ 50 0). lia. Defined.

Lemma cookie_follows_high_score_witness :
  (Persistence.stepWithCookies (H := SpecModel.logic) App.CheckGameOver
     (∅, (stuckWorld.1, stuck))).1 !! Persistence.highScoreKey
  = Some "50".
Proof.
  destruct (cookie_follows_high_score (L := SpecModel.logic) App.CheckGameOver ∅
              stuckWorld.1 stuck) as [Hjar _].
  - intros Hpos. cbn in Hpos. lia.
  - rewrite Hjar; [|vm_compute; reflexivity]. vm_compute. reflexivity.
Defined.

Lemma instructions_only_at_first_visit_witness :
  Persistence.markVisited ∅ !! Persistence.visitedKey = Some "true"
  ∧ Persistence.firstTimeUser (Persistence.markVisited ∅) = false.
Proof.
  destruct (instructions_only_at_first_visit ∅) as (Hseen & _ & Hset & _).
  split; [apply Hset; reflexivity|exact Hseen].
Defined.
